(** * vischunk: linearization and chunk-query analysis

    A shallow embedding of [src/js/core/coordinates.js] (classes
    [GridCoordinate] and [CellCoordinate]), of the [LRUCache] container and of
    the query analysis of [SimulationModel], followed by the properties of the
    specification that concern them.

    JavaScript numbers are modelled by [Z]: every quantity handled below is an
    integer far inside the range in which double arithmetic is exact, except
    where a theorem says otherwise.  The bitwise operators of JavaScript work
    on 32-bit two's-complement integers; that conversion is written out in
    [JS.toInt32]. *)

From stdpp Require Import gmap strings list sorting.
From Stdlib Require Import ZArith Lia QArith.

Local Open Scope Z_scope.

(** ** JavaScript number primitives *)

Module JS.

(** [ToInt32]: reduction modulo 2^32 into the signed range. *)
Definition toInt32 (v : Z) : Z := (v + 2 ^ 31) mod 2 ^ 32 - 2 ^ 31.

(** [a & b], [a | b], [a ^ b]. *)
Definition and (a b : Z) : Z := Z.land (toInt32 a) (toInt32 b).
Definition or (a b : Z) : Z := Z.lor (toInt32 a) (toInt32 b).
Definition xor (a b : Z) : Z := Z.lxor (toInt32 a) (toInt32 b).

(** [a << b]: the shift count is taken modulo 32 and the result wraps. *)
Definition shl (a b : Z) : Z := toInt32 (Z.shiftl (toInt32 a) (Z.land b 31)).

(** [Math.floor(a / b)] on integers, for [b <> 0]. *)
Definition floorDiv (a b : Z) : Z := a / b.

(** [Math.ceil(a / b)] on integers, for [b <> 0]. *)
Definition ceilDiv (a b : Z) : Z := - ((- a) / b).

(** [a % b]: the remainder takes the sign of the dividend. *)
Definition rem (a b : Z) : Z := Z.rem a b.

(** [for (let i = lo; i < hi; i++)]: the values taken by [i]. *)
Definition range (lo hi : Z) : list Z := seqZ lo (hi - lo).

(** [for (let i = lo; i <= hi; i++)]. *)
Definition rangeIncl (lo hi : Z) : list Z := seqZ lo (hi - lo + 1).

(** [Array.prototype.sort] with the comparator [(a, b) => key(a) - key(b)].
    The sort is stable: of two elements with the same key, the one that came
    first stays first. *)
Fixpoint insertBy {A} (key : A → Z) (a : A) (l : list A) : list A :=
  match l with
  | [] => [a]
  | b :: l' => if key a <=? key b then a :: b :: l' else b :: insertBy key a l'
  end.

Definition sortBy {A} (key : A → Z) (l : list A) : list A :=
  foldr (insertBy key) [] l.

End JS.

(** ** LRUCache *)

Module LRUCache.

Section Cache.
Context {K V : Type} `{EqDecision K}.

(** [cache] is the underlying [Map] in insertion order, oldest entry
    first. *)
Record t := { maxSize : Z; cache : list (K * V) }.

Definition create (maxSize : Z) : t := {| maxSize := maxSize; cache := [] |}.

Fixpoint lookup (key : K) (l : list (K * V)) : option V :=
  match l with
  | [] => None
  | (k, v) :: l' => if decide (k = key) then Some v else lookup key l'
  end.

Definition remove (key : K) (l : list (K * V)) : list (K * V) :=
  filter (λ kv, kv.1 ≠ key) l.

Definition has (c : t) (key : K) : bool := bool_decide (is_Some (lookup key (cache c))).

(** [get] refreshes the entry when the stored item is truthy. *)
Definition get (truthy : V → bool) (c : t) (key : K) : option V * t :=
  match lookup key (cache c) with
  | Some item =>
      if truthy item
      then (Some item, {| maxSize := maxSize c; cache := remove key (cache c) ++ [(key, item)] |})
      else (Some item, c)
  | None => (None, c)
  end.

Definition set (c : t) (key : K) (value : V) : t :=
  let entries :=
    if has c key then remove key (cache c)
    else if bool_decide (Z.of_nat (length (cache c)) >= maxSize c ∧ maxSize c > 0)
         then tail (cache c)
         else cache c in
  {| maxSize := maxSize c; cache := entries ++ [(key, value)] |}.

Definition clear (c : t) : t := {| maxSize := maxSize c; cache := [] |}.

End Cache.

Arguments t : clear implicits.

End LRUCache.

(** ** GridCoordinate *)

Module GridCoordinate.

Record t := {
  sizeX : Z;
  sizeY : Z;
  sizeZ : Z;
  algorithm : string
}.

(** The constructor: [sizeZ || 1] clamped to at least 1, and
    [algorithm || 'row-major']. *)
Definition new (sizeX sizeY sizeZ : Z) (algorithm : string) : t :=
  {| sizeX := sizeX;
     sizeY := sizeY;
     sizeZ := Z.max 1 (if sizeZ =? 0 then 1 else sizeZ);
     algorithm := if decide (algorithm = "") then "row-major" else algorithm |}.

Definition mortonEncode2D (x y : Z) : Z :=
  foldl (λ result i,
           JS.or result
             (JS.or (JS.shl (JS.and x (JS.shl 1 i)) i)
                    (JS.shl (JS.and y (JS.shl 1 i)) (i + 1))))
        0 (JS.range 0 16).

Definition mortonEncode3D (x y z : Z) : Z :=
  foldl (λ result i,
           JS.or result
             (JS.or (JS.or (JS.shl (JS.and x (JS.shl 1 i)) (2 * i))
                           (JS.shl (JS.and y (JS.shl 1 i)) (2 * i + 1)))
                    (JS.shl (JS.and z (JS.shl 1 i)) (2 * i + 2))))
        0 (JS.range 0 10).

(** [Math.pow(2, Math.ceil(Math.log2(n)))], with the logarithm taken
    exact. *)
Definition nextPowerOfTwo (n : Z) : Z :=
  if n <=? 1 then 1 else 2 ^ Z.log2_up n.

Definition hilbertRotate (n x y rx ry : Z) : Z * Z :=
  if ry =? 0 then
    let '(x, y) := if rx =? 1 then (n - 1 - x, n - 1 - y) else (x, y) in
    (y, x)
  else (x, y).

(** One pass through the body of the loop of [hilbertEncode2D] at the
    integer scale [s]. *)
Definition hilbertStep (s : Z) (st : Z * Z * Z) : Z * Z * Z :=
  let '(x, y, d) := st in
  let rx := if JS.and x s >? 0 then 1 else 0 in
  let ry := if JS.and y s >? 0 then 1 else 0 in
  let d := d + s * s * JS.xor (3 * rx) ry in
  let '(x, y) := hilbertRotate s x y rx ry in
  (x, y, d).

(** The passes at the scales [2^(j-1), ..., 2, 1]. *)
Fixpoint hilbertScales (j : nat) (st : Z * Z * Z) : Z * Z * Z :=
  match j with
  | O => st
  | S j' => hilbertScales j' (hilbertStep (2 ^ Z.of_nat j') st)
  end.

(** [s /= 2] is a division of doubles, so after [s = 1] the loop goes on
    with [s = 2^-1, ..., 2^-1074] until the quotient rounds to zero.  At
    such a scale [ToInt32(s) = 0], hence [x & s = y & s = 0] and
    [rx = ry = 0]: the pass adds [s * s * 0] to [d] and [hilbertRotate]
    only exchanges [x] and [y]. *)
Fixpoint hilbertFractionalScales (passes : nat) (st : Z * Z * Z) : Z * Z * Z :=
  match passes with
  | O => st
  | S p => let '(x, y, d) := st in hilbertFractionalScales p (y, x, d + 0)
  end.

Definition hilbertEncode2D (x y maxDim : Z) : Z :=
  let n := nextPowerOfTwo maxDim in
  let st := hilbertScales (Z.to_nat (Z.log2 n)) (x, y, 0) in
  (hilbertFractionalScales 1074 st).2.

Definition calculateLinearPosition (g : t) (x y z : Z) : Z :=
  if decide (algorithm g = "row-major") then
    x + y * sizeX g + z * sizeX g * sizeY g
  else if decide (algorithm g = "col-major") then
    y + x * sizeY g + z * sizeX g * sizeY g
  else if decide (algorithm g = "z-order") then
    if sizeZ g >? 1 then mortonEncode3D x y z else mortonEncode2D x y
  else if decide (algorithm g = "hilbert") then
    if sizeZ g >? 1
    then z * sizeX g * sizeY g + hilbertEncode2D x y (Z.max (sizeX g) (sizeY g))
    else hilbertEncode2D x y (Z.max (sizeX g) (sizeY g))
  else
    x + y * sizeX g + z * sizeX g * sizeY g.

(** The cache key [JSON.stringify([x, y, z, sizeX, sizeY, sizeZ, algorithm])]. *)
Definition key : Type := Z * Z * Z * Z * Z * Z * string.

Definition cacheKey (g : t) (x y z : Z) : key :=
  (x, y, z, sizeX g, sizeY g, sizeZ g, algorithm g).

(** A number is truthy unless it is zero. *)
Definition truthy (v : Z) : bool := negb (v =? 0).

(** [linearize]: [cache] is [this.cache], [None] when the grid was built
    without one.  The cache object is shared, so the updated cache is
    returned next to the result. *)
Definition linearize (g : t) (cache : option (LRUCache.t key Z)) (x y z : Z)
  : Z * option (LRUCache.t key Z) :=
  let k := cacheKey g x y z in
  match cache with
  | Some c =>
      (* [has(cacheKey)] holds exactly when [get(cacheKey)] finds an item *)
      match LRUCache.get truthy c k with
      | (Some v, c') => (v, Some c')
      | (None, _) =>
          let result := calculateLinearPosition g x y z in
          (result, Some (LRUCache.set c k result))
      end
  | None => (calculateLinearPosition g x y z, None)
  end.

Definition getTotalCells (g : t) : Z := sizeX g * sizeY g * sizeZ g.

(** The object returned by [getBounds]. *)
Record bounds := {
  startX : Z; startY : Z; startZ : Z;
  endX : Z; endY : Z; endZ : Z
}.

Definition getBounds (g : t) (gridX gridY gridZ nominalSizeX nominalSizeY nominalSizeZ : Z)
  : bounds :=
  let startX := gridX * nominalSizeX in
  let startY := gridY * nominalSizeY in
  let startZ := gridZ * nominalSizeZ in
  let endX := Z.min (startX + nominalSizeX) (sizeX g) in
  let endY := Z.min (startY + nominalSizeY) (sizeY g) in
  let endZ := Z.min (startZ + nominalSizeZ) (sizeZ g) in
  {| startX := startX; startY := startY; startZ := startZ;
     endX := endX; endY := endY; endZ := endZ |}.

(** The object returned by [getDimensions]. *)
Record dimensions := { actualX : Z; actualY : Z; actualZ : Z }.

Definition getDimensions (g : t)
    (gridX gridY gridZ nominalSizeX nominalSizeY nominalSizeZ : Z) : dimensions :=
  let bounds := getBounds g gridX gridY gridZ nominalSizeX nominalSizeY nominalSizeZ in
  {| actualX := endX bounds - startX bounds;
     actualY := endY bounds - startY bounds;
     actualZ := endZ bounds - startZ bounds |}.

End GridCoordinate.

(** ** Exceptions and instance state *)

Module Exec.

(** The three [throw new Error(...)] of [CellCoordinate], each with the
    number that its message reports. *)
Inductive error : Type :=
| InvalidRawPos (rawPos : Z)
| InvalidRawChunkIndex (rawChunkIndex : Z)
| InvalidChunkIndex (chunkIndex : Z).

Inductive outcome (A : Type) : Type :=
| Return (a : A)
| Throw (e : error).
Arguments Return {A} a.
Arguments Throw {A} e.

(** A method that reads and mutates state of type [S] and may throw; what
    was mutated before a throw stays mutated. *)
Definition M (S A : Type) : Type := S → outcome A * S.

Definition ret {S A} (a : A) : M S A := λ s, (Return a, s).
Definition throw {S A} (e : error) : M S A := λ s, (Throw e, s).
Definition bind {S A B} (m : M S A) (k : A → M S B) : M S B :=
  λ s, match m s with
       | (Return a, s') => k a s'
       | (Throw e, s') => (Throw e, s')
       end.
Definition gets {S A} (f : S → A) : M S A := λ s, (Return (f s), s).
Definition modify {S} (f : S → S) : M S unit := λ s, (Return tt, f s).

(** The value returned, when nothing was thrown. *)
Definition value {A S} (r : outcome A * S) : option A :=
  match r.1 with Return a => Some a | Throw _ => None end.

End Exec.

Notation "'do' x <- m ; k" := (Exec.bind m (λ x, k))
  (at level 10, x pattern, m at level 100, k at level 200).
Notation "'do_' m ; k" := (Exec.bind m (λ _, k))
  (at level 10, m at level 100, k at level 200).

(** ** CellCoordinate *)

Module CellCoordinate.

(** [CellCoordinate extends GridCoordinate]: [base] holds the inherited
    fields. *)
Record t := {
  base : GridCoordinate.t;
  chunkGrid : GridCoordinate.t;
  chunkSizeX : Z;
  chunkSizeY : Z;
  chunkSizeZ : Z
}.

Definition new (cellSizeX cellSizeY cellSizeZ : Z) (cellAlgorithm : string)
    (chunkGrid : GridCoordinate.t) (chunkSizeX chunkSizeY chunkSizeZ : Z) : t :=
  {| base := GridCoordinate.new cellSizeX cellSizeY cellSizeZ cellAlgorithm;
     chunkGrid := chunkGrid;
     chunkSizeX := chunkSizeX;
     chunkSizeY := chunkSizeY;
     chunkSizeZ := chunkSizeZ |}.

Definition sizeX (c : t) : Z := GridCoordinate.sizeX (base c).
Definition sizeY (c : t) : Z := GridCoordinate.sizeY (base c).
Definition sizeZ (c : t) : Z := GridCoordinate.sizeZ (base c).
Definition algorithm (c : t) : string := GridCoordinate.algorithm (base c).

Definition coords : Type := Z * Z * Z.

(** Key of [chunkNormalizationCache]:
    [JSON.stringify([chunksX, chunksY, chunksZ, chunkGrid.algorithm])]. *)
Definition normKey : Type := Z * Z * Z * string.

(** Key of [localPositionCache]: [JSON.stringify([chunk.x, chunk.y, chunk.z,
    actualChunkX, actualChunkY, actualChunkZ, algorithm])]. *)
Definition localKey : Type := Z * Z * Z * Z * Z * Z * string.

(** The caches that an instance creates for itself.
    [chunkNormalizationCache] holds the entries stored under the plain key,
    [chunkReverseCache] those stored under the key with the suffix
    ['-reverse'].  A cache that was not created yet behaves as an empty
    one. *)
Record instance := {
  chunkNormalizationCache : gmap normKey (gmap Z Z);
  chunkReverseCache : gmap normKey (gmap Z coords);
  localPositionCache : gmap localKey (gmap Z Z)
}.

(** All that a method call can read or mutate: [gridCache] is
    [this.chunkGrid.cache], an object shared with other grids. *)
Record state := {
  gridCache : option (LRUCache.t GridCoordinate.key Z);
  own : instance
}.

Definition freshInstance : instance :=
  {| chunkNormalizationCache := ∅; chunkReverseCache := ∅; localPositionCache := ∅ |}.

Definition fresh (gridCache : option (LRUCache.t GridCoordinate.key Z)) : state :=
  {| gridCache := gridCache; own := freshInstance |}.

Definition modifyOwn (f : instance → instance) : Exec.M state unit :=
  Exec.modify (λ s, {| gridCache := gridCache s; own := f (own s) |}).

Definition getParentChunk (c : t) (cellX cellY cellZ : Z) : coords :=
  (JS.floorDiv cellX (chunkSizeX c),
   JS.floorDiv cellY (chunkSizeY c),
   JS.floorDiv cellZ (chunkSizeZ c)).

(** The override with explicit dimensions. *)
Definition calculateLinearPosition (c : t) (x y z sizeX sizeY sizeZ : Z) : Z :=
  if decide (algorithm c = "row-major") then
    x + y * sizeX + z * sizeX * sizeY
  else if decide (algorithm c = "col-major") then
    y + x * sizeY + z * sizeX * sizeY
  else if decide (algorithm c = "z-order") then
    if sizeZ >? 1
    then GridCoordinate.mortonEncode3D x y z
    else GridCoordinate.mortonEncode2D x y
  else if decide (algorithm c = "hilbert") then
    if sizeZ >? 1
    then z * sizeX * sizeY + GridCoordinate.hilbertEncode2D x y (Z.max sizeX sizeY)
    else GridCoordinate.hilbertEncode2D x y (Z.max sizeX sizeY)
  else
    x + y * sizeX + z * sizeX * sizeY.

(** [positions.forEach((pos, seqIndex) => map.set(pos, seqIndex))]: a later
    entry with the same raw position replaces the earlier one. *)
Definition positionMapOf (positions : list Z) : gmap Z Z :=
  foldl (λ m '(seqIndex, pos), <[pos := Z.of_nat seqIndex]> m) ∅
        (imap (λ i pos, (i, pos)) positions).

(** The raw positions of all cells of a chunk of the given actual
    dimensions, in the order of the three nested loops. *)
Definition localPositions (c : t) (actualChunkX actualChunkY actualChunkZ : Z) : list Z :=
  lz ← JS.range 0 actualChunkZ;
  ly ← JS.range 0 actualChunkY;
  lx ← JS.range 0 actualChunkX;
  [calculateLinearPosition c lx ly lz actualChunkX actualChunkY actualChunkZ].

Definition getNormalizedLocalPosition (c : t) (rawPos : Z) (chunk : coords)
    (actualChunkX actualChunkY actualChunkZ : Z) : Exec.M state Z :=
  let cacheKey : localKey :=
    (chunk.1.1, chunk.1.2, chunk.2, actualChunkX, actualChunkY, actualChunkZ, algorithm c) in
  do has <- Exec.gets (λ s, bool_decide (is_Some (localPositionCache (own s) !! cacheKey)));
  do_ (if has : bool then Exec.ret tt
       else
         let positions := localPositions c actualChunkX actualChunkY actualChunkZ in
         let sorted := JS.sortBy id positions in
         modifyOwn (λ o,
           {| chunkNormalizationCache := chunkNormalizationCache o;
              chunkReverseCache := chunkReverseCache o;
              localPositionCache := <[cacheKey := positionMapOf sorted]> (localPositionCache o) |}));
  do positionMap <- Exec.gets (λ s, default ∅ (localPositionCache (own s) !! cacheKey));
  match (positionMap : gmap Z Z) !! rawPos with
  | Some result => Exec.ret result
  | None => Exec.throw (Exec.InvalidRawPos rawPos)
  end.

Definition getLocalCellIndex (c : t) (cellX cellY cellZ : Z) (chunk : coords)
  : Exec.M state Z :=
  let chunkStartX := chunk.1.1 * chunkSizeX c in
  let chunkStartY := chunk.1.2 * chunkSizeY c in
  let chunkStartZ := chunk.2 * chunkSizeZ c in
  let chunkEndX := Z.min (chunkStartX + chunkSizeX c) (sizeX c) in
  let chunkEndY := Z.min (chunkStartY + chunkSizeY c) (sizeY c) in
  let chunkEndZ := Z.min (chunkStartZ + chunkSizeZ c) (sizeZ c) in
  let localX := cellX - chunkStartX in
  let localY := cellY - chunkStartY in
  let localZ := cellZ - chunkStartZ in
  let actualChunkX := chunkEndX - chunkStartX in
  let actualChunkY := chunkEndY - chunkStartY in
  let actualChunkZ := chunkEndZ - chunkStartZ in
  let rawPos :=
    calculateLinearPosition c localX localY localZ actualChunkX actualChunkY actualChunkZ in
  if bool_decide (algorithm c = "z-order" ∨ algorithm c = "hilbert") then
    getNormalizedLocalPosition c rawPos chunk actualChunkX actualChunkY actualChunkZ
  else Exec.ret rawPos.

(** The entries [{ rawPos, cx, cy, cz }] pushed by the three nested loops of
    [getNormalizedChunkIndex]. *)
Definition chunkPositions (c : t) : list (Z * coords) :=
  cz ← JS.range 0 (GridCoordinate.sizeZ (chunkGrid c));
  cy ← JS.range 0 (GridCoordinate.sizeY (chunkGrid c));
  cx ← JS.range 0 (GridCoordinate.sizeX (chunkGrid c));
  [(GridCoordinate.calculateLinearPosition (chunkGrid c) cx cy cz, (cx, cy, cz))].

Definition normalizationMapOf (positions : list (Z * coords)) : gmap Z Z :=
  foldl (λ m '(seqIndex, item), <[item.1 := Z.of_nat seqIndex]> m) ∅
        (imap (λ i item, (i, item)) positions).

Definition reverseMapOf (positions : list (Z * coords)) : gmap Z coords :=
  foldl (λ m '(seqIndex, item), <[Z.of_nat seqIndex := item.2]> m) ∅
        (imap (λ i item, (i, item)) positions).

Definition chunkCacheKey (c : t) : normKey :=
  (GridCoordinate.sizeX (chunkGrid c), GridCoordinate.sizeY (chunkGrid c),
   GridCoordinate.sizeZ (chunkGrid c), GridCoordinate.algorithm (chunkGrid c)).

Definition getNormalizedChunkIndex (c : t) (rawChunkIndex : Z) (_chunk : coords)
  : Exec.M state Z :=
  let cacheKey := chunkCacheKey c in
  do has <- Exec.gets (λ s,
    bool_decide (is_Some (chunkNormalizationCache (own s) !! cacheKey)));
  do_ (if has : bool then Exec.ret tt
       else
         let positions := JS.sortBy fst (chunkPositions c) in
         modifyOwn (λ o,
           {| chunkNormalizationCache :=
                <[cacheKey := normalizationMapOf positions]> (chunkNormalizationCache o);
              chunkReverseCache :=
                <[cacheKey := reverseMapOf positions]> (chunkReverseCache o);
              localPositionCache := localPositionCache o |}));
  do normalizationMap <- Exec.gets (λ s,
    default ∅ (chunkNormalizationCache (own s) !! cacheKey));
  match (normalizationMap : gmap Z Z) !! rawChunkIndex with
  | Some result => Exec.ret result
  | None => Exec.throw (Exec.InvalidRawChunkIndex rawChunkIndex)
  end.

(** The direct calculation of the [switch]: the [default] case repeats the
    row-major case. *)
Definition delinearizeDirect (c : t) (chunkIndex : Z) : coords :=
  let chunksX := GridCoordinate.sizeX (chunkGrid c) in
  let chunksY := GridCoordinate.sizeY (chunkGrid c) in
  let z := JS.floorDiv chunkIndex (chunksX * chunksY) in
  let xyIndex := JS.rem chunkIndex (chunksX * chunksY) in
  if decide (GridCoordinate.algorithm (chunkGrid c) = "row-major") then
    (JS.rem xyIndex chunksX, JS.floorDiv xyIndex chunksX, z)
  else if decide (GridCoordinate.algorithm (chunkGrid c) = "col-major") then
    (JS.floorDiv xyIndex chunksY, JS.rem xyIndex chunksY, z)
  else
    (JS.rem xyIndex chunksX, JS.floorDiv xyIndex chunksX, z).

Definition delinearizeChunkIndex (c : t) (chunkIndex : Z) : Exec.M state coords :=
  let cacheKey := chunkCacheKey c in
  do reverse <- Exec.gets (λ s, chunkReverseCache (own s) !! cacheKey);
  match
    (if bool_decide (GridCoordinate.algorithm (chunkGrid c) = "z-order"
                     ∨ GridCoordinate.algorithm (chunkGrid c) = "hilbert")
     then reverse else None) : option (gmap Z coords)
  with
  | Some reverseMap =>
      match reverseMap !! chunkIndex with
      | Some result => Exec.ret result
      | None => Exec.throw (Exec.InvalidChunkIndex chunkIndex)
      end
  | None => Exec.ret (delinearizeDirect c chunkIndex)
  end.

(** The number of cells of a chunk after clipping at the array bounds. *)
Definition actualCellsInChunk (c : t) (chunkCoords : coords) : Z :=
  let chunkStartX := chunkCoords.1.1 * chunkSizeX c in
  let chunkStartY := chunkCoords.1.2 * chunkSizeY c in
  let chunkStartZ := chunkCoords.2 * chunkSizeZ c in
  let chunkEndX := Z.min (chunkStartX + chunkSizeX c) (sizeX c) in
  let chunkEndY := Z.min (chunkStartY + chunkSizeY c) (sizeY c) in
  let chunkEndZ := Z.min (chunkStartZ + chunkSizeZ c) (sizeZ c) in
  (chunkEndX - chunkStartX) * (chunkEndY - chunkStartY) * (chunkEndZ - chunkStartZ).

(** The loop of [calculateCellsBeforeChunk] over the indices still to
    visit, with the running total. *)
Fixpoint cellsBeforeLoop (c : t) (indices : list Z) (cellsBeforeThisChunk : Z)
  : Exec.M state Z :=
  match indices with
  | [] => Exec.ret cellsBeforeThisChunk
  | i :: rest =>
      do chunkCoords <- delinearizeChunkIndex c i;
      cellsBeforeLoop c rest (cellsBeforeThisChunk + actualCellsInChunk c chunkCoords)
  end.

Definition calculateCellsBeforeChunk (c : t) (chunkIndex : Z) : Exec.M state Z :=
  cellsBeforeLoop c (JS.range 0 chunkIndex) 0.

(** [this.chunkGrid.linearize(...)], threading the grid's cache. *)
Definition linearizeChunk (c : t) (chunk : coords) : Exec.M state Z :=
  λ s,
    let '(r, cache') :=
      GridCoordinate.linearize (chunkGrid c) (gridCache s) chunk.1.1 chunk.1.2 chunk.2 in
    (Exec.Return r, {| gridCache := cache'; own := own s |}).

(** The first half of [getGlobalIndex]: the chunk index that is handed to
    [calculateCellsBeforeChunk]. *)
Definition getChunkIndex (c : t) (chunk : coords) : Exec.M state Z :=
  do chunkIndex <- linearizeChunk c chunk;
  if bool_decide (GridCoordinate.algorithm (chunkGrid c) = "z-order"
                  ∨ GridCoordinate.algorithm (chunkGrid c) = "hilbert")
  then getNormalizedChunkIndex c chunkIndex chunk
  else Exec.ret chunkIndex.

Definition getGlobalIndex (c : t) (cellX cellY cellZ : Z) : Exec.M state Z :=
  let chunk := getParentChunk c cellX cellY cellZ in
  do chunkIndex <- getChunkIndex c chunk;
  do cellsBeforeThisChunk <- calculateCellsBeforeChunk c chunkIndex;
  do localCellIndex <- getLocalCellIndex c cellX cellY cellZ chunk;
  Exec.ret (cellsBeforeThisChunk + localCellIndex).

End CellCoordinate.

(** ** SimulationModel *)

Module SimulationModel.

Record query := {
  qx : Z * Z;
  qy : Z * Z;
  qz : Z * Z
}.

(** The [params] object: [size] and [chunk] are the three-element arrays
    built by [getParameters]. *)
Record params := {
  size : Z * Z * Z;
  chunk : Z * Z * Z;
  cellAlgorithm : string;
  chunkAlgorithm : string;
  query_ : query
}.

(** Key of [cellCoordinateCache]. *)
Definition systemKey : Type := Z * Z * Z * Z * Z * Z * string * string.

(** The parts of a [SimulationModel] that the query analysis touches:
    [chunkPositionCache] is handed to every chunk grid, and
    [cellCoordinateCache] keeps one [CellCoordinate] per configuration,
    here with the caches that the instance has built so far. *)
Record t := {
  chunkPositionCache : LRUCache.t GridCoordinate.key Z;
  cellCoordinateCache : gmap systemKey (CellCoordinate.t * CellCoordinate.instance)
}.

(** [CONFIG.LRU_CONFIG_CACHE_SIZE]. *)
Definition LRU_CONFIG_CACHE_SIZE : Z := 50.

Definition new : t :=
  {| chunkPositionCache := LRUCache.create LRU_CONFIG_CACHE_SIZE;
     cellCoordinateCache := ∅ |}.

Definition keyOf (p : params) : systemKey :=
  let '(sizeX, sizeY, sizeZ) := size p in
  let '(chunkX, chunkY, chunkZ) := chunk p in
  (sizeX, sizeY, sizeZ, chunkX, chunkY, chunkZ, cellAlgorithm p, chunkAlgorithm p).

(** The coordinate system that [getCellCoordinateSystem] builds on a cache
    miss. *)
Definition buildCellCoordinateSystem (p : params) : CellCoordinate.t :=
  let '(sizeX, sizeY, sizeZ) := size p in
  let '(chunkX, chunkY, chunkZ) := chunk p in
  let chunksX := JS.ceilDiv sizeX chunkX in
  let chunksY := JS.ceilDiv sizeY chunkY in
  let chunksZ := JS.ceilDiv sizeZ chunkZ in
  let chunkGrid := GridCoordinate.new chunksX chunksY chunksZ (chunkAlgorithm p) in
  CellCoordinate.new sizeX sizeY sizeZ (cellAlgorithm p) chunkGrid chunkX chunkY chunkZ.

Definition getCellCoordinateSystem (p : params)
  : Exec.M t (CellCoordinate.t * CellCoordinate.instance) :=
  do cached <- Exec.gets (λ m, cellCoordinateCache m !! keyOf p);
  match cached with
  | Some cellCoordinate => Exec.ret cellCoordinate
  | None =>
      let cellCoordinate := (buildCellCoordinateSystem p, CellCoordinate.freshInstance) in
      do_ Exec.modify (λ m,
            {| chunkPositionCache := chunkPositionCache m;
               cellCoordinateCache := <[keyOf p := cellCoordinate]> (cellCoordinateCache m) |});
      Exec.ret cellCoordinate
  end.

(** [getGlobalPosition]: the call mutates the cached instance and the
    shared chunk-position cache. *)
Definition getGlobalPosition (x y z : Z) (p : params) : Exec.M t Z :=
  do cellCoord <- getCellCoordinateSystem p;
  λ m,
    let '(r, s') :=
      CellCoordinate.getGlobalIndex cellCoord.1 x y z
        {| CellCoordinate.gridCache := Some (chunkPositionCache m);
           CellCoordinate.own := cellCoord.2 |} in
    (r, {| chunkPositionCache :=
             default (chunkPositionCache m) (CellCoordinate.gridCache s');
           cellCoordinateCache :=
             <[keyOf p := (cellCoord.1, CellCoordinate.own s')]> (cellCoordinateCache m) |}).

Definition getChunkIndex (x y z : Z) (p : params) : Z :=
  let '(chunkX, chunkY, chunkZ) := chunk p in
  let cx := JS.floorDiv x chunkX in
  let cy := JS.floorDiv y chunkY in
  let cz := JS.floorDiv z chunkZ in
  let '(sizeX, sizeY, _) := size p in
  let chunksX := JS.ceilDiv sizeX chunkX in
  let chunksY := JS.ceilDiv sizeY chunkY in
  cx + cy * chunksX + cz * chunksX * chunksY.

(** The two sets under construction in
    [calculateRequestedCellsAndChunks]. *)
Definition requested : Type := gset CellCoordinate.coords * gset Z.

Definition addRequested (p : params) (x y z : Z) (acc : requested) : requested :=
  ({[ (x, y, z) ]} ∪ acc.1, {[ getChunkIndex x y z p ]} ∪ acc.2).

Definition calculateRequestedCellsAndChunks (p : params) (sizeX sizeY sizeZ : Z)
  : requested :=
  foldl (λ acc x,
    foldl (λ acc y,
      if sizeZ >? 0 then
        foldl (λ acc z, addRequested p x y z acc) acc
              (JS.rangeIncl (qz (query_ p)).1 (Z.min (qz (query_ p)).2 (sizeZ - 1)))
      else addRequested p x y 0 acc)
      acc (JS.rangeIncl (qy (query_ p)).1 (Z.min (qy (query_ p)).2 (sizeY - 1))))
    (∅, ∅) (JS.rangeIncl (qx (query_ p)).1 (Z.min (qx (query_ p)).2 (sizeX - 1))).

Definition getChunkCoordsFromIndex (chunkIdx chunksX chunksY : Z) : CellCoordinate.coords :=
  let cz := JS.floorDiv chunkIdx (chunksX * chunksY) in
  let cy := JS.floorDiv (JS.rem chunkIdx (chunksX * chunksY)) chunksX in
  let cx := JS.rem chunkIdx chunksX in
  (cx, cy, cz).

Definition addChunkCells (actualCells : gset CellCoordinate.coords)
    (chunkCoords : CellCoordinate.coords) (p : params) (sizeX sizeY sizeZ : Z)
  : gset CellCoordinate.coords :=
  let '(chunkX, chunkY, chunkZ) := chunk p in
  let '(cx, cy, cz) := chunkCoords in
  foldl (λ acc dx,
    foldl (λ acc dy,
      foldl (λ acc dz,
        let x := cx * chunkX + dx in
        let y := cy * chunkY + dy in
        let z := cz * chunkZ + dz in
        if bool_decide (x < sizeX ∧ y < sizeY ∧ (sizeZ = 0 ∨ z < sizeZ))
        then {[ (x, y, z) ]} ∪ acc
        else acc)
        acc (JS.range 0 (if sizeZ >? 0 then chunkZ else 1)))
      acc (JS.range 0 chunkY))
    actualCells (JS.range 0 chunkX).

(** [touchedChunks.forEach]: a [Set] is visited in insertion order, the
    model visits [elements touchedChunks]; the cells are collected in a set
    again, so the order of the visit does not show in the result. *)
Definition calculateActualCellsFromChunks (touchedChunks : gset Z) (p : params)
    (sizeX sizeY sizeZ : Z) : gset CellCoordinate.coords :=
  let '(chunkX, chunkY, _) := chunk p in
  let chunksX := JS.ceilDiv sizeX chunkX in
  let chunksY := JS.ceilDiv sizeY chunkY in
  foldl (λ actualCells chunkIdx,
           let chunkCoords := getChunkCoordsFromIndex chunkIdx chunksX chunksY in
           addChunkCells actualCells chunkCoords p sizeX sizeY sizeZ)
        ∅ (elements touchedChunks).

(** [[...cellSet].map(key => this.getGlobalPosition(x, y, z, params))] over
    the cells still to visit. *)
Fixpoint positionsOf (cells : list CellCoordinate.coords) (p : params)
  : Exec.M t (list Z) :=
  match cells with
  | [] => Exec.ret []
  | (x, y, z) :: rest =>
      do pos <- getGlobalPosition x y z p;
      do more <- positionsOf rest p;
      Exec.ret (pos :: more)
  end.

Definition cellSetToPositions (cellSet : gset CellCoordinate.coords) (p : params)
  : Exec.M t (list Z) :=
  positionsOf (elements cellSet) p.

(** The loop of [calculateByteRanges] over the sorted values still to
    read. *)
Fixpoint byteRangesLoop (sorted : list Z) (start end_ : Z) (ranges : list (Z * Z))
  : list (Z * Z) :=
  match sorted with
  | [] => ranges ++ [(start, end_)]
  | v :: rest =>
      if v =? end_ + 1
      then byteRangesLoop rest start v ranges
      else byteRangesLoop rest v v (ranges ++ [(start, end_)])
  end.

Definition calculateByteRanges (positions : list Z) : list (Z * Z) :=
  match JS.sortBy id positions with
  | [] => []
  | first :: rest => byteRangesLoop rest first first []
  end.

Record data := {
  requestedCells : gset CellCoordinate.coords;
  actualCells : gset CellCoordinate.coords;
  touchedChunks : gset Z;
  chunkedRanges : list (Z * Z);
  unchunkedRanges : list (Z * Z);
  totalCells : Z
}.

(** The set-valued part of [calculateData], before any global index is
    computed. *)
Definition analyse (p : params) : requested * gset CellCoordinate.coords :=
  let '(sizeX, sizeY, sizeZ) := size p in
  let r := calculateRequestedCellsAndChunks p sizeX sizeY sizeZ in
  (r, calculateActualCellsFromChunks r.2 p sizeX sizeY sizeZ).

Definition calculateData (p : params) : Exec.M t data :=
  let '(sizeX, sizeY, sizeZ) := size p in
  let totalCells := sizeX * sizeY * Z.max 1 sizeZ in
  let '(requestedCells, touchedChunks, actualCells) := analyse p in
  do chunkedPositions <- cellSetToPositions actualCells p;
  let chunkedRanges := calculateByteRanges chunkedPositions in
  do unchunkedPositions <- cellSetToPositions requestedCells p;
  let unchunkedRanges := calculateByteRanges unchunkedPositions in
  Exec.ret {| requestedCells := requestedCells;
              actualCells := actualCells;
              touchedChunks := touchedChunks;
              chunkedRanges := chunkedRanges;
              unchunkedRanges := unchunkedRanges;
              totalCells := totalCells |}.

(** [linearizeCoordinate]: a temporary grid that shares
    [this.linearizationCache], which is passed in and handed back. *)
Definition linearizeCoordinate (linearizationCache : LRUCache.t GridCoordinate.key Z)
    (x y z sizeX sizeY sizeZ : Z) (algorithm : string)
  : Z * option (LRUCache.t GridCoordinate.key Z) :=
  let tempGrid := GridCoordinate.new sizeX sizeY sizeZ algorithm in
  GridCoordinate.linearize tempGrid (Some linearizationCache) x y z.

Definition getIntraChunkPosition (linearizationCache : LRUCache.t GridCoordinate.key Z)
    (x y z : Z) (p : params) : Z * option (LRUCache.t GridCoordinate.key Z) :=
  let '(sizeX, sizeY, sizeZ) := size p in
  let '(chunkX, chunkY, chunkZ) := chunk p in
  let chunkCX := JS.floorDiv x chunkX in
  let chunkCY := JS.floorDiv y chunkY in
  let chunkCZ := JS.floorDiv z chunkZ in
  let chunkStartX := chunkCX * chunkX in
  let chunkStartY := chunkCY * chunkY in
  let chunkStartZ := chunkCZ * chunkZ in
  let actualChunkX := Z.min (chunkStartX + chunkX) sizeX - chunkStartX in
  let actualChunkY := Z.min (chunkStartY + chunkY) sizeY - chunkStartY in
  let actualChunkZ := Z.min (chunkStartZ + chunkZ) sizeZ - chunkStartZ in
  let localX := x - chunkStartX in
  let localY := y - chunkStartY in
  let localZ := z - chunkStartZ in
  linearizeCoordinate linearizationCache localX localY localZ
    actualChunkX actualChunkY actualChunkZ (cellAlgorithm p).

Definition getInterChunkPosition (x y z : Z) (p : params) : Exec.M t Z :=
  do cellCoord <- getCellCoordinateSystem p;
  let chunk := CellCoordinate.getParentChunk cellCoord.1 x y z in
  λ m,
    let '(r, cache') :=
      GridCoordinate.linearize (CellCoordinate.chunkGrid cellCoord.1)
        (Some (chunkPositionCache m)) chunk.1.1 chunk.1.2 chunk.2 in
    (Exec.Return r,
     {| chunkPositionCache := default (chunkPositionCache m) cache';
        cellCoordinateCache := cellCoordinateCache m |}).

Definition getNormalizedChunkPosition (x y z : Z) (p : params) : Exec.M t Z :=
  getInterChunkPosition x y z p.

(** The object returned by [getChunkBounds]. *)
Record chunkBounds := { startX : Z; startY : Z; endX : Z; endY : Z }.

Definition getChunkBounds (chunkCX chunkCY chunkX chunkY sizeX sizeY : Z) : chunkBounds :=
  let startX := chunkCX * chunkX in
  let startY := chunkCY * chunkY in
  let endX := Z.min (startX + chunkX) sizeX in
  let endY := Z.min (startY + chunkY) sizeY in
  {| startX := startX; startY := startY; endX := endX; endY := endY |}.

(** The object returned by [getChunkGlobalRange]; [None] stands for
    [null]. *)
Record chunkRange := { min : Z; max : Z; positions : list Z }.

(** The cells of layer 0 whose positions [getChunkGlobalRange] pushes, in the
    order of its two loops. *)
Definition chunkLayerCells (chunkCX chunkCY : Z) (p : params) : list CellCoordinate.coords :=
  let '(sizeX, sizeY, _) := size p in
  let '(chunkX, chunkY, _) := chunk p in
  dy ← JS.range 0 chunkY;
  dx ← JS.range 0 chunkX;
  let x := chunkCX * chunkX + dx in
  let y := chunkCY * chunkY + dy in
  if bool_decide (x < sizeX ∧ y < sizeY) then [(x, y, 0)] else [].

Definition getChunkGlobalRange (chunkCX chunkCY : Z) (p : params)
  : Exec.M t (option chunkRange) :=
  do positions <- positionsOf (chunkLayerCells chunkCX chunkCY p) p;
  match positions with
  | [] => Exec.ret None
  | first :: rest =>
      Exec.ret (Some {| min := foldl Z.min first rest;
                        max := foldl Z.max first rest;
                        positions := positions |})
  end.

End SimulationModel.

(** ** Metrics shown by the visualizer *)

Module DataVisualizer.


End DataVisualizer.

(** ** SettingsManager *)

Module SettingsManager.

(** The numeric fields of [this.state]. *)
Record state := {
  sizeX : Z; sizeY : Z; sizeZ : Z;
  chunkX : Z; chunkY : Z; chunkZ : Z;
  queryX1 : Z; queryX2 : Z;
  queryY1 : Z; queryY2 : Z;
  queryZ1 : Z; queryZ2 : Z
}.

(** The [updates] object: a field is [None] while the key is absent. *)
Record updates := {
  uSizeX : option Z; uSizeY : option Z; uSizeZ : option Z;
  uChunkX : option Z; uChunkY : option Z; uChunkZ : option Z;
  uQueryX1 : option Z; uQueryX2 : option Z;
  uQueryY1 : option Z; uQueryY2 : option Z;
  uQueryZ1 : option Z; uQueryZ2 : option Z
}.

(** [if (cond) { updates.key = value; }] on one key. *)
Definition assignIf (cond : bool) (value : Z) (old : option Z) : option Z :=
  if cond then Some value else old.

Definition validateAndClampState (s : state) : updates :=
  (* cap dimensions *)
  let uSizeX := assignIf (sizeX s >? 256) 256 None in
  let sizeX1 := if sizeX s >? 256 then 256 else sizeX s in
  let uSizeY := assignIf (sizeY s >? 256) 256 None in
  let sizeY1 := if sizeY s >? 256 then 256 else sizeY s in
  let uSizeZ := assignIf (sizeZ s >? 16) 16 None in
  let sizeZ1 := if sizeZ s >? 16 then 16 else sizeZ s in
  (* cap the total number of cells *)
  let totalCells := sizeX1 * sizeY1 * Z.max 1 sizeZ1 in
  let tooMany := totalCells >? 65536 in
  let uSizeX := assignIf tooMany 256 uSizeX in
  let sizeX := if tooMany then 256 else sizeX1 in
  let uSizeY := assignIf tooMany 256 uSizeY in
  let sizeY := if tooMany then 256 else sizeY1 in
  let uSizeZ := assignIf tooMany 1 uSizeZ in
  let sizeZ := if tooMany then 1 else sizeZ1 in
  (* clamp chunk sizes *)
  let uChunkX := assignIf (chunkX s >? sizeX) sizeX None in
  let uChunkY := assignIf (chunkY s >? sizeY) sizeY None in
  let uChunkZ := assignIf (chunkZ s >? sizeZ) (Z.max 1 sizeZ) None in
  (* clamp query values *)
  let maxX := sizeX - 1 in
  let maxY := sizeY - 1 in
  let maxZ := sizeZ - 1 in
  let uQueryX1 := assignIf (queryX1 s >? maxX) (Z.max 0 maxX) None in
  let uQueryX2 := assignIf (queryX2 s >? maxX) (Z.max 0 maxX) None in
  let uQueryY1 := assignIf (queryY1 s >? maxY) (Z.max 0 maxY) None in
  let uQueryY2 := assignIf (queryY2 s >? maxY) (Z.max 0 maxY) None in
  let uQueryZ1 := assignIf (queryZ1 s >? maxZ) (Z.max 0 maxZ) None in
  let uQueryZ2 := assignIf (queryZ2 s >? maxZ) (Z.max 0 maxZ) None in
  (* a dimension of 1 *)
  let oneX := sizeX =? 1 in
  let uChunkX := assignIf oneX 1 uChunkX in
  let uQueryX1 := assignIf oneX 0 uQueryX1 in
  let uQueryX2 := assignIf oneX 0 uQueryX2 in
  let oneY := sizeY =? 1 in
  let uChunkY := assignIf oneY 1 uChunkY in
  let uQueryY1 := assignIf oneY 0 uQueryY1 in
  let uQueryY2 := assignIf oneY 0 uQueryY2 in
  let oneZ := sizeZ =? 1 in
  let uChunkZ := assignIf oneZ 1 uChunkZ in
  let uQueryZ1 := assignIf oneZ 0 uQueryZ1 in
  let uQueryZ2 := assignIf oneZ 0 uQueryZ2 in
  {| uSizeX := uSizeX; uSizeY := uSizeY; uSizeZ := uSizeZ;
     uChunkX := uChunkX; uChunkY := uChunkY; uChunkZ := uChunkZ;
     uQueryX1 := uQueryX1; uQueryX2 := uQueryX2;
     uQueryY1 := uQueryY1; uQueryY2 := uQueryY2;
     uQueryZ1 := uQueryZ1; uQueryZ2 := uQueryZ2 |}.

(** [setState(newState)]: [{ ...this.state, ...newState }] on the numeric
    fields. *)
Definition setState (s : state) (newState : updates) : state :=
  {| sizeX := default (sizeX s) (uSizeX newState);
     sizeY := default (sizeY s) (uSizeY newState);
     sizeZ := default (sizeZ s) (uSizeZ newState);
     chunkX := default (chunkX s) (uChunkX newState);
     chunkY := default (chunkY s) (uChunkY newState);
     chunkZ := default (chunkZ s) (uChunkZ newState);
     queryX1 := default (queryX1 s) (uQueryX1 newState);
     queryX2 := default (queryX2 s) (uQueryX2 newState);
     queryY1 := default (queryY1 s) (uQueryY1 newState);
     queryY2 := default (queryY2 s) (uQueryY2 newState);
     queryZ1 := default (queryZ1 s) (uQueryZ1 newState);
     queryZ2 := default (queryZ2 s) (uQueryZ2 newState) |}.

(** What [updateConstraints] of the visualizer does to the state: the
    updates of [validateAndClampState] are merged into it (merging no update
    leaves the state as it is). *)
Definition updateConstraints (s : state) : state :=
  setState s (validateAndClampState s).

End SettingsManager.

(** * Statements *)

(** Definitions used to state the properties: the predicates of the
    specification, the configurations singled out below, and the recurrence
    of the specification for the Hilbert curve. *)

(** [F] adds to its accumulator exactly the elements that satisfy [P];
    [mem] is the membership relation of the accumulator. *)
Definition collects {S E : Type} (mem : E → S → Prop) (F : S → S) (P : E → Prop) : Prop :=
  ∀ acc e, mem e (F acc) ↔ mem e acc ∨ P e.





(** The cell lies in the array. *)
Definition inArray (sizeX sizeY sizeZ : Z) (c : CellCoordinate.coords) : Prop :=
  0 ≤ c.1.1 < sizeX ∧ 0 ≤ c.1.2 < sizeY ∧ 0 ≤ c.2 < sizeZ.





(** One chunk is touched and every cell of the array is read. *)
Definition singleChunkReadsAll (p : SimulationModel.params) : Prop :=
  let '(sizeX, sizeY, sizeZ) := SimulationModel.size p in
  let '(_, touchedChunks, actualCells) := SimulationModel.analyse p in
  size touchedChunks = 1%nat
  ∧ ∀ c, c ∈ actualCells ↔ inArray sizeX sizeY sizeZ c.


(** The inverted query box x = [1, 0] on a 2 x 2 x 1 array made of one
    chunk. *)
Definition invertedOnSingleChunk : SimulationModel.params :=
  {| SimulationModel.size := (2, 2, 1);
     SimulationModel.chunk := (2, 2, 1);
     SimulationModel.cellAlgorithm := "row-major";
     SimulationModel.chunkAlgorithm := "row-major";
     SimulationModel.query_ :=
       {| SimulationModel.qx := (1, 0);
          SimulationModel.qy := (0, 0);
          SimulationModel.qz := (0, 0) |} |}.

(** A 3 x 2 x 3 array held in one chunk, cells in Hilbert order, queried in
    full. *)
Definition layeredHilbertCells : SimulationModel.params :=
  {| SimulationModel.size := (3, 2, 3);
     SimulationModel.chunk := (3, 2, 3);
     SimulationModel.cellAlgorithm := "hilbert";
     SimulationModel.chunkAlgorithm := "row-major";
     SimulationModel.query_ :=
       {| SimulationModel.qx := (0, 2);
          SimulationModel.qy := (0, 1);
          SimulationModel.qz := (0, 2) |} |}.

(** A 3 x 2 x 5 array in chunks of 1 x 1 x 2, chunks in Hilbert order. *)
Definition layeredHilbertChunks : SimulationModel.params :=
  {| SimulationModel.size := (3, 2, 5);
     SimulationModel.chunk := (1, 1, 2);
     SimulationModel.cellAlgorithm := "row-major";
     SimulationModel.chunkAlgorithm := "hilbert";
     SimulationModel.query_ :=
       {| SimulationModel.qx := (0, 2);
          SimulationModel.qy := (0, 1);
          SimulationModel.qz := (0, 4) |} |}.

(** All cells of an array, in the order z, y, x. *)
Definition arrayCells (sizeX sizeY sizeZ : Z) : list CellCoordinate.coords :=
  z ← JS.range 0 sizeZ; y ← JS.range 0 sizeY; x ← JS.range 0 sizeX; [(x, y, z)].

(** Lexicographic order on (chunk index, local rank). *)
Definition lexLt (a b : Z * Z) : Prop := a.1 < b.1 ∨ (a.1 = b.1 ∧ a.2 < b.2).

(** [ranges] is the decomposition of the set [indices] into maximal runs of
    consecutive integers, in ascending order. *)
Definition runDecomposition (indices : list Z) (ranges : list (Z * Z)) : Prop :=
  (∀ r, r ∈ ranges → r.1 ≤ r.2)
  ∧ (∀ (i : nat) r1 r2, ranges !! i = Some r1 → ranges !! S i = Some r2 → r1.2 + 2 ≤ r2.1)
  ∧ (∀ v, v ∈ indices ↔ ∃ r, r ∈ ranges ∧ r.1 ≤ v ≤ r.2).

(** ** The Hilbert curve of the specification *)

(** The recurrence in the words of the specification, on unbounded
    integers: at the scale [s], [rx = (x & s) != 0], [ry = (y & s) != 0],
    [d += s^2 * ((3 * rx) xor ry)], and when [ry = 0] the point is reflected
    as [(n - 1 - x, n - 1 - y)] if [rx = 1] and then [x] and [y] are
    swapped. *)
Definition specHilbertStep (n s : Z) (st : Z * Z * Z) : Z * Z * Z :=
  let '(x, y, d) := st in
  let rx := if Z.land x s =? 0 then 0 else 1 in
  let ry := if Z.land y s =? 0 then 0 else 1 in
  let d := d + s * s * Z.lxor (3 * rx) ry in
  let '(x, y) :=
    if ry =? 0 then
      let '(x, y) := if rx =? 1 then (n - 1 - x, n - 1 - y) else (x, y) in
      (y, x)
    else (x, y) in
  (x, y, d).

(** The scales [2^(j-1), ..., 2, 1] of that recurrence. *)
Fixpoint specHilbertScales (n : Z) (j : nat) (st : Z * Z * Z) : Z * Z * Z :=
  match j with
  | O => st
  | S j' => specHilbertScales n j' (specHilbertStep n (2 ^ Z.of_nat j') st)
  end.

(** The recurrence run from [s = n / 2] down to [s = 1], for [n] a power of
    two. *)
Definition specHilbert2D (n x y : Z) : Z :=
  (specHilbertScales n (Z.to_nat (Z.log2 n)) (x, y, 0)).2.

(** [hilbertEncode2D(., ., maxDim)] is a bijection from the square of side
    [n = nextPowerOfTwo(maxDim)] onto [[0, n * n)] and computes the
    recurrence of the specification. *)
Definition hilbertDenseBijection (maxDim : Z) : Prop :=
  let n := GridCoordinate.nextPowerOfTwo maxDim in
  let h x y := GridCoordinate.hilbertEncode2D x y maxDim in
  (∃ k, 0 ≤ k ∧ n = 2 ^ k)
  ∧ (∀ x y, 0 ≤ x < n → 0 ≤ y < n → 0 ≤ h x y < n * n)
  ∧ (∀ x y x' y', 0 ≤ x < n → 0 ≤ y < n → 0 ≤ x' < n → 0 ≤ y' < n →
                  h x y = h x' y' → x = x' ∧ y = y')
  ∧ (∀ d, 0 ≤ d < n * n → ∃ x y, 0 ≤ x < n ∧ 0 ≤ y < n ∧ h x y = d)
  ∧ (∀ x y, 0 ≤ x < n → 0 ≤ y < n → h x y = specHilbert2D n x y).

(** The low [j] bits of [a] and [b] are the same. *)
Definition agree (j : nat) (a b : Z) : Prop :=
  ∀ i, 0 ≤ i < Z.of_nat j → Z.testbit a i = Z.testbit b i.

(** The quadrant digit [(3 * rx) xor ry]. *)
Definition quadrant (rx ry : bool) : Z :=
  match rx, ry with
  | false, false => 0
  | false, true => 1
  | true, true => 2
  | true, false => 3
  end.

(** The coordinates handed to the next finer scale, up to bits that the finer
    scales do not read: the reflection is written as a complement. *)
Definition turn (rx ry : bool) (x y : Z) : Z * Z :=
  match ry, rx with
  | true, _ => (x, y)
  | false, true => (Z.lnot y, Z.lnot x)
  | false, false => (y, x)
  end.

(** The Hilbert index of the low [j] bits of [x] and [y]. *)
Fixpoint hilbertIndex (j : nat) (x y : Z) : Z :=
  match j with
  | O => 0
  | S j' =>
      let rx := Z.testbit x (Z.of_nat j') in
      let ry := Z.testbit y (Z.of_nat j') in
      4 ^ Z.of_nat j' * quadrant rx ry
      + hilbertIndex j' (turn rx ry x y).1 (turn rx ry x y).2
  end.

(** The range in which the coordinates stay while [j] integer scales are
    still to come: inside the 32-bit integers. *)
Definition withinInt32 (j : nat) (v : Z) : Prop :=
  - (2 ^ 31 - 2 ^ Z.of_nat j) ≤ v < 2 ^ 31 - 2 ^ Z.of_nat j.

(** * Properties *)

(** ** The memoisation of [linearize] *)








(** ** Chunk-index arithmetic *)












(** ** Loops that collect into a set *)

Section Collect.
Context {S E : Type} (mem : E → S → Prop).

Lemma collects_foldl {A} (f : S → A → S) (P : A → E → Prop) (l : list A) :
  (∀ a, a ∈ l → collects mem (λ acc, f acc a) (P a)) →
  collects mem (λ acc, foldl f acc l) (λ e, ∃ a, a ∈ l ∧ P a e).
Proof.
  induction l as [|a l IH]; intros H acc e; simpl.
  - split; [by left|]. intros [|(a & Ha & _)]; [done|]. by apply elem_of_nil in Ha.
  - assert (IH' : collects mem (λ acc, foldl f acc l) (λ e, ∃ a, a ∈ l ∧ P a e))
      by (apply IH; intros b Hb; apply H; by right).
    assert (Ha : collects mem (λ acc, f acc a) (P a)) by (apply H; left).
    unfold collects in IH', Ha. rewrite IH', Ha. split.
    + intros [[|]|(b & Hb & HP)]; [by left| |].
      * right. exists a. split; [left|done].
      * right. exists b. split; [by right|done].
    + intros [|(b & Hb & HP)]; [by left; left|].
      apply elem_of_cons in Hb as [->|Hb]; [by left; right|].
      right. by exists b.
Qed.

Lemma collects_iff F P Q : (∀ e, P e ↔ Q e) → collects mem F P → collects mem F Q.
Proof. intros HPQ H acc e. rewrite <- HPQ. apply H. Qed.

End Collect.

(** ** The sets of the query analysis *)

Lemma elem_of_range i lo hi : i ∈ JS.range lo hi ↔ lo ≤ i < hi.
Proof. unfold JS.range. rewrite elem_of_seqZ. lia. Qed.

Lemma elem_of_rangeIncl i lo hi : i ∈ JS.rangeIncl lo hi ↔ lo ≤ i ≤ hi.
Proof. unfold JS.rangeIncl. rewrite elem_of_seqZ. lia. Qed.

Section QueryAnalysis.
Import SimulationModel.

Variable p : params.
Variables sizeX sizeY sizeZ : Z.

Local Abbreviation x0 := ((qx (query_ p)).1).
Local Abbreviation x1 := ((qx (query_ p)).2).
Local Abbreviation y0 := ((qy (query_ p)).1).
Local Abbreviation y1 := ((qy (query_ p)).2).
Local Abbreviation z0 := ((qz (query_ p)).1).
Local Abbreviation z1 := ((qz (query_ p)).2).

(** The three nested loops of [calculateRequestedCellsAndChunks] visit the
    query box clipped from above. *)
Lemma requested_loops {E} (mem : E → requested → Prop) (P : Z → Z → Z → E → Prop) :
  0 < sizeZ →
  (∀ x y z, collects mem (addRequested p x y z) (P x y z)) →
  ∀ e, mem e (calculateRequestedCellsAndChunks p sizeX sizeY sizeZ)
       ↔ mem e (∅, ∅)
         ∨ ∃ x y z, x0 ≤ x ≤ Z.min x1 (sizeX - 1)
                    ∧ y0 ≤ y ≤ Z.min y1 (sizeY - 1)
                    ∧ z0 ≤ z ≤ Z.min z1 (sizeZ - 1)
                    ∧ P x y z e.
Proof.
  intros HZ Hadd e. unfold calculateRequestedCellsAndChunks.
  assert (Hgt : (sizeZ >? 0) = true) by lia. rewrite Hgt.
  match goal with
  | |- mem e (foldl ?F _ ?L) ↔ _ =>
      pose proof (collects_foldl mem F
        (λ x e, ∃ y, y ∈ JS.rangeIncl y0 (Z.min y1 (sizeY - 1))
                     ∧ ∃ z, z ∈ JS.rangeIncl z0 (Z.min z1 (sizeZ - 1)) ∧ P x y z e) L) as H
  end.
  unfold collects in H. etrans; [apply H|]; clear H.
  - intros x _.
    apply (collects_foldl mem _
             (λ y e, ∃ z, z ∈ JS.rangeIncl z0 (Z.min z1 (sizeZ - 1)) ∧ P x y z e)).
    intros y _.
    apply (collects_foldl mem (λ acc z, addRequested p x y z acc) (P x y)).
    intros z _. apply Hadd.
  - apply or_iff_compat_l. split.
    + intros (x & Hx & y & Hy & z & Hz & HP).
      rewrite elem_of_rangeIncl in Hx, Hy, Hz. by exists x, y, z.
    + intros (x & y & z & Hx & Hy & Hz & HP).
      exists x. rewrite elem_of_rangeIncl. split; [done|].
      exists y. rewrite elem_of_rangeIncl. split; [done|].
      exists z. rewrite elem_of_rangeIncl. done.
Qed.


Lemma touchedChunks_spec i :
  0 < sizeZ →
  i ∈ (calculateRequestedCellsAndChunks p sizeX sizeY sizeZ).2
  ↔ ∃ x y z, x0 ≤ x ≤ Z.min x1 (sizeX - 1)
             ∧ y0 ≤ y ≤ Z.min y1 (sizeY - 1)
             ∧ z0 ≤ z ≤ Z.min z1 (sizeZ - 1)
             ∧ i = getChunkIndex x y z p.
Proof.
  intros HZ.
  rewrite (requested_loops (λ i acc, i ∈ acc.2) (λ x y z i, i = getChunkIndex x y z p) HZ).
  - simpl. split; [intros [H|H]; [set_solver|done]|by right].
  - intros x y z acc e. unfold addRequested. simpl. set_solver.
Qed.

(** The cells that [addChunkCells] adds for one chunk. *)
Lemma addChunkCells_spec actual cx cy cz c :
  0 < sizeZ →
  c ∈ addChunkCells actual (cx, cy, cz) p sizeX sizeY sizeZ
  ↔ c ∈ actual
    ∨ (cx * (chunk p).1.1 ≤ c.1.1 < cx * (chunk p).1.1 + (chunk p).1.1
       ∧ cy * (chunk p).1.2 ≤ c.1.2 < cy * (chunk p).1.2 + (chunk p).1.2
       ∧ cz * (chunk p).2 ≤ c.2 < cz * (chunk p).2 + (chunk p).2
       ∧ c.1.1 < sizeX ∧ c.1.2 < sizeY ∧ c.2 < sizeZ).
Proof.
  intros HZ. unfold addChunkCells.
  destruct (chunk p) as [[chunkX chunkY] chunkZ]. simpl.
  assert (Hgt : (sizeZ >? 0) = true) by lia. rewrite Hgt.
  pose proof (collects_foldl (λ (c : CellCoordinate.coords) acc, c ∈ acc)
    (λ acc dx,
       foldl (λ acc dy,
         foldl (λ (acc : gset CellCoordinate.coords) dz,
           if bool_decide (cx * chunkX + dx < sizeX ∧ cy * chunkY + dy < sizeY
                           ∧ (sizeZ = 0 ∨ cz * chunkZ + dz < sizeZ))
           then {[ (cx * chunkX + dx, cy * chunkY + dy, cz * chunkZ + dz) ]} ∪ acc
           else acc) acc (JS.range 0 chunkZ)) acc (JS.range 0 chunkY))
    (λ dx c, ∃ dy, dy ∈ JS.range 0 chunkY ∧ ∃ dz, dz ∈ JS.range 0 chunkZ
               ∧ (cx * chunkX + dx < sizeX ∧ cy * chunkY + dy < sizeY
                  ∧ cz * chunkZ + dz < sizeZ)
               ∧ c = (cx * chunkX + dx, cy * chunkY + dy, cz * chunkZ + dz))
    (JS.range 0 chunkX)) as H.
  unfold collects in H. rewrite H; clear H.
  - apply or_iff_compat_l. split.
    + intros (dx & Hdx & dy & Hdy & dz & Hdz & Hb & ->).
      rewrite elem_of_range in Hdx, Hdy, Hdz. simpl. lia.
    + intros Hc. destruct c as [[x y] z]. simpl in Hc.
      exists (x - cx * chunkX). rewrite elem_of_range. split; [lia|].
      exists (y - cy * chunkY). rewrite elem_of_range. split; [lia|].
      exists (z - cz * chunkZ). rewrite elem_of_range. split; [lia|].
      split; [lia|]. f_equal; [f_equal|]; lia.
  - intros dx _.
    apply (collects_foldl (λ (c : CellCoordinate.coords) acc, c ∈ acc) _
      (λ dy c, ∃ dz, dz ∈ JS.range 0 chunkZ
                 ∧ (cx * chunkX + dx < sizeX ∧ cy * chunkY + dy < sizeY
                    ∧ cz * chunkZ + dz < sizeZ)
                 ∧ c = (cx * chunkX + dx, cy * chunkY + dy, cz * chunkZ + dz))).
    intros dy _.
    apply (collects_foldl (λ (c : CellCoordinate.coords) acc, c ∈ acc) _
      (λ dz c, (cx * chunkX + dx < sizeX ∧ cy * chunkY + dy < sizeY
                ∧ cz * chunkZ + dz < sizeZ)
               ∧ c = (cx * chunkX + dx, cy * chunkY + dy, cz * chunkZ + dz))).
    intros dz _ acc e. case_bool_decide as Hb.
    + rewrite elem_of_union, elem_of_singleton.
      split; [intros [->|]; [right; split; [lia|done]|by left]|].
      intros [|[_ ->]]; [by right|by left].
    + split; [by left|]. intros [|[Hb' _]]; [done|]. exfalso. apply Hb. lia.
Qed.

(** The cells that [calculateActualCellsFromChunks] gathers. *)
Lemma actualCells_spec (touched : gset Z) c :
  0 < sizeZ →
  c ∈ calculateActualCellsFromChunks touched p sizeX sizeY sizeZ
  ↔ ∃ i, i ∈ touched
         ∧ c ∈ addChunkCells ∅
                 (getChunkCoordsFromIndex i (JS.ceilDiv sizeX (chunk p).1.1)
                                            (JS.ceilDiv sizeY (chunk p).1.2))
                 p sizeX sizeY sizeZ.
Proof.
  intros HZ. unfold calculateActualCellsFromChunks.
  destruct (chunk p) as [[chunkX chunkY] chunkZ] eqn:Hchunk. simpl.
  pose proof (collects_foldl (λ (c : CellCoordinate.coords) acc, c ∈ acc)
    (λ actualCells chunkIdx,
       addChunkCells actualCells
         (getChunkCoordsFromIndex chunkIdx (JS.ceilDiv sizeX chunkX) (JS.ceilDiv sizeY chunkY))
         p sizeX sizeY sizeZ)
    (λ i c, c ∈ addChunkCells ∅
                  (getChunkCoordsFromIndex i (JS.ceilDiv sizeX chunkX) (JS.ceilDiv sizeY chunkY))
                  p sizeX sizeY sizeZ)
    (elements touched)) as H.
  unfold collects in H. rewrite H; clear H.
  - split.
    + intros [|(i & Hi & Hc)]; [set_solver|]. exists i. by rewrite <- elem_of_elements.
    + intros (i & Hi & Hc). right. exists i. by rewrite elem_of_elements.
  - intros i _ acc e.
    destruct (getChunkCoordsFromIndex i _ _) as [[cx cy] cz].
    rewrite !addChunkCells_spec by done. set_solver.
Qed.

End QueryAnalysis.

(** ** Requested cells, touched chunks and actual cells *)



(** The sets of a result bundle are those of [analyse]. *)
Lemma calculateData_sets p m d m' :
  SimulationModel.calculateData p m = (Exec.Return d, m') →
  (SimulationModel.requestedCells d, SimulationModel.touchedChunks d,
   SimulationModel.actualCells d) = SimulationModel.analyse p.
Proof.
  unfold SimulationModel.calculateData.
  destruct (SimulationModel.size p) as [[sizeX sizeY] sizeZ].
  destruct (SimulationModel.analyse p) as [[requestedCells touchedChunks] actualCells].
  unfold Exec.bind, Exec.ret.
  destruct (SimulationModel.cellSetToPositions actualCells p m) as [[chunked|e] m1];
    [|discriminate].
  destruct (SimulationModel.cellSetToPositions requestedCells p m1) as [[unchunked|e] m2];
    [|discriminate].
  intros H. injection H as <- _. reflexivity.
Qed.










Lemma getChunkCoordsFromIndex_0 chunksX chunksY :
  SimulationModel.getChunkCoordsFromIndex 0 chunksX chunksY = (0, 0, 0).
Proof. reflexivity. Qed.

(** C8, as amended.  When the chunk size equals the array size on every
    axis, the sizes are positive, and the lower corner of the query box is a
    cell of the array with no interval inverted, exactly one chunk is touched
    and the actual cells are all the cells of the array. *)
Theorem single_chunk_reads_all (p : SimulationModel.params) :
  let q := SimulationModel.query_ p in
  SimulationModel.chunk p = SimulationModel.size p →
  0 < (SimulationModel.size p).1.1 →
  0 < (SimulationModel.size p).1.2 →
  0 < (SimulationModel.size p).2 →
  0 ≤ (SimulationModel.qx q).1 ≤ (SimulationModel.qx q).2 →
  0 ≤ (SimulationModel.qy q).1 ≤ (SimulationModel.qy q).2 →
  0 ≤ (SimulationModel.qz q).1 ≤ (SimulationModel.qz q).2 →
  (SimulationModel.qx q).1 < (SimulationModel.size p).1.1 →
  (SimulationModel.qy q).1 < (SimulationModel.size p).1.2 →
  (SimulationModel.qz q).1 < (SimulationModel.size p).2 →
  singleChunkReadsAll p.
Proof.
  intros q Hchunk HX HY HZ Hx Hy Hz Hx' Hy' Hz'.
  unfold singleChunkReadsAll, SimulationModel.analyse.
  destruct (SimulationModel.size p) as [[sizeX sizeY] sizeZ] eqn:Hsize. simpl in *.
  set (r := SimulationModel.calculateRequestedCellsAndChunks p sizeX sizeY sizeZ).
  assert (Hindex : ∀ x y z, 0 ≤ x < sizeX → 0 ≤ y < sizeY → 0 ≤ z < sizeZ →
                            SimulationModel.getChunkIndex x y z p = 0).
  { intros x y z ? ? ?. unfold SimulationModel.getChunkIndex.
    rewrite Hchunk, Hsize. unfold JS.floorDiv.
    rewrite !Z.div_small by lia. lia. }
  assert (Htouched : r.2 = {[ 0 ]}).
  { apply leibniz_equiv. intros i. rewrite elem_of_singleton.
    unfold r. rewrite touchedChunks_spec by done. fold q. split.
    - intros (x & y & z & ? & ? & ? & ->). apply Hindex; lia.
    - intros ->. exists (SimulationModel.qx q).1, (SimulationModel.qy q).1,
        (SimulationModel.qz q).1.
      split_and!; [lia..|]. symmetry. apply Hindex; lia. }
  destruct r as [requestedCells touchedChunks]. simpl in Htouched. subst touchedChunks.
  split; [apply size_singleton|].
  intros c. rewrite actualCells_spec by done. simpl. split.
  - intros (i & Hi & Hc). apply elem_of_singleton in Hi as ->.
    rewrite getChunkCoordsFromIndex_0 in Hc.
    apply addChunkCells_spec in Hc as [Hc|Hc]; [by apply not_elem_of_empty in Hc| |done].
    rewrite Hchunk in Hc. unfold inArray. simpl in Hc. lia.
  - intros Hc. exists 0. split; [by apply elem_of_singleton|].
    rewrite getChunkCoordsFromIndex_0.
    apply addChunkCells_spec; [done|]. right.
    rewrite Hchunk. unfold inArray in Hc. simpl. lia.
Qed.

Lemma single_chunk_reads_all_witness :
  singleChunkReadsAll
    {| SimulationModel.size := (5, 4, 3);
       SimulationModel.chunk := (5, 4, 3);
       SimulationModel.cellAlgorithm := "hilbert";
       SimulationModel.chunkAlgorithm := "z-order";
       SimulationModel.query_ :=
         {| SimulationModel.qx := (4, 9);
            SimulationModel.qy := (0, 0);
            SimulationModel.qz := (1, 2) |} |}.
Proof. apply single_chunk_reads_all; simpl; (reflexivity || lia). Defined.

(** C8 as stated fails: a query box that selects no cell touches no chunk,
    also when one chunk covers the array. *)
Lemma single_chunk_untouched : ¬ singleChunkReadsAll invertedOnSingleChunk.
Proof.
  unfold singleChunkReadsAll. intros [H _]. vm_compute in H. discriminate.
Qed.

(** ** Storage ranges *)

Lemma elem_of_insertBy (a v : Z) l : v ∈ JS.insertBy id a l ↔ v = a ∨ v ∈ l.
Proof.
  induction l as [|b l IH]; simpl.
  - rewrite list_elem_of_singleton, elem_of_nil. tauto.
  - destruct (a <=? b).
    + by rewrite elem_of_cons.
    + rewrite !elem_of_cons, IH. tauto.
Qed.

Lemma elem_of_sortBy (v : Z) l : v ∈ JS.sortBy id l ↔ v ∈ l.
Proof.
  induction l as [|a l IH]; simpl; [done|].
  fold (JS.sortBy id l). rewrite elem_of_insertBy, elem_of_cons, IH. done.
Qed.

Lemma HdRel_insertBy (a b : Z) l :
  b < a → HdRel Z.lt b l → HdRel Z.lt b (JS.insertBy id a l).
Proof.
  intros Hba Hl. destruct l as [|c l]; simpl; [by constructor|].
  destruct (a <=? c); constructor; [done|].
  by inversion Hl.
Qed.

Lemma Sorted_insertBy (a : Z) l :
  a ∉ l → Sorted Z.lt l → Sorted Z.lt (JS.insertBy id a l).
Proof.
  induction l as [|b l IH]; intros Ha Hl; simpl.
  - by repeat constructor.
  - apply not_elem_of_cons in Ha as [Hab Ha].
    apply Sorted_inv in Hl as [Hl Hb].
    destruct (Z.leb_spec a b).
    + constructor; [by constructor|]. constructor. lia.
    + constructor; [by apply IH|]. apply HdRel_insertBy; [lia|done].
Qed.

(** Sorting positions that are pairwise distinct gives a strictly increasing
    list. *)
Lemma Sorted_sortBy l : NoDup l → Sorted Z.lt (JS.sortBy id l).
Proof.
  induction l as [|a l IH]; intros Hnd; simpl; [constructor|].
  apply NoDup_cons in Hnd as [Ha Hnd]. fold (JS.sortBy id l).
  apply Sorted_insertBy; [by rewrite elem_of_sortBy|by apply IH].
Qed.

Lemma byteRangesLoop_app sorted : ∀ start end_ ranges,
  SimulationModel.byteRangesLoop sorted start end_ ranges
  = ranges ++ SimulationModel.byteRangesLoop sorted start end_ [].
Proof.
  induction sorted as [|v rest IH]; intros start end_ ranges; simpl; [done|].
  destruct (v =? end_ + 1); [apply IH|].
  rewrite IH, (IH v v [(start, end_)]). by rewrite app_assoc.
Qed.

(** The loop of [calculateByteRanges] on a strictly increasing list: the
    first range starts at [start], every range is an interval, two ranges
    in a row are at least 2 apart, and the ranges cover [start .. end_] and
    the values still to read, and nothing else. *)
Lemma byteRangesLoop_runs sorted : ∀ start end_,
  start ≤ end_ → Sorted Z.lt (end_ :: sorted) →
  let ranges := SimulationModel.byteRangesLoop sorted start end_ [] in
  (∃ e tl, ranges = (start, e) :: tl)
  ∧ (∀ r, r ∈ ranges → r.1 ≤ r.2)
  ∧ (∀ (i : nat) r1 r2, ranges !! i = Some r1 → ranges !! S i = Some r2 → r1.2 + 2 ≤ r2.1)
  ∧ (∀ v, (∃ r, r ∈ ranges ∧ r.1 ≤ v ≤ r.2) ↔ start ≤ v ≤ end_ ∨ v ∈ sorted).
Proof.
  induction sorted as [|w rest IH]; intros start end_ Hse Hs; simpl.
  - split_and!.
    + by eexists _, _.
    + intros r Hr. apply list_elem_of_singleton in Hr as ->. done.
    + intros i r1 r2 _ H2. by destruct i.
    + intros v. split.
      * intros (r & Hr & Hv). apply list_elem_of_singleton in Hr as ->. by left.
      * intros [Hv|Hv]; [|by apply elem_of_nil in Hv].
        exists (start, end_). split; [by apply list_elem_of_singleton|done].
  - apply Sorted_inv in Hs as [Hs Hhd]. inversion Hhd as [|? ? Hlt]; subst.
    destruct (Z.eqb_spec w (end_ + 1)) as [->|Hne].
    + destruct (IH start (end_ + 1)) as (Hh & Hi & Hg & Hc); [lia|done|].
      split_and!; [done..|].
      intros v. rewrite Hc, elem_of_cons. intuition lia.
    + rewrite byteRangesLoop_app. simpl.
      destruct (IH w w) as ((e & tl & Hh) & Hi & Hg & Hc); [lia|done|].
      split_and!.
      * by eexists _, _.
      * intros r Hr. apply elem_of_cons in Hr as [->|Hr]; [done|by apply Hi].
      * intros i r1 r2 H1 H2. destruct i as [|i].
        -- simpl in H1, H2. injection H1 as <-. rewrite Hh in H2. injection H2 as <-.
           simpl. lia.
        -- simpl in H1, H2. by apply (Hg i).
      * intros v. rewrite elem_of_cons. split.
        -- intros (r & Hr & Hv). apply elem_of_cons in Hr as [->|Hr]; [by left|].
           assert (Hv' : w ≤ v ≤ w ∨ v ∈ rest) by (apply Hc; by exists r).
           right. destruct Hv' as [?|?]; [left; lia|by right].
        -- intros [Hv|[->|Hv]].
           ++ exists (start, end_). split; [left|done].
           ++ destruct (proj2 (Hc w)) as (r & Hr & Hw); [left; lia|].
              exists r. split; [by right|done].
           ++ destruct (proj2 (Hc v)) as (r & Hr & Hw); [by right|].
              exists r. split; [by right|done].
Qed.

(** On positions that are pairwise distinct, [calculateByteRanges] returns
    the decomposition into maximal runs; on no positions it returns no
    range. *)
Lemma calculateByteRanges_runs positions :
  NoDup positions →
  runDecomposition positions (SimulationModel.calculateByteRanges positions)
  ∧ SimulationModel.calculateByteRanges [] = [].
Proof.
  intros Hnd. split; [|done]. unfold SimulationModel.calculateByteRanges.
  pose proof (Sorted_sortBy positions Hnd) as Hs.
  pose proof (elem_of_sortBy) as He.
  destruct (JS.sortBy id positions) as [|first rest] eqn:Hsorted.
  - split_and!.
    + intros r Hr. by apply elem_of_nil in Hr.
    + intros i r1 r2 H1. by destruct i.
    + intros v. rewrite <- He, Hsorted. split.
      * intros Hv. by apply elem_of_nil in Hv.
      * intros (r & Hr & _). by apply elem_of_nil in Hr.
  - destruct (byteRangesLoop_runs rest first first) as (_ & Hi & Hg & Hc); [lia|done|].
    split_and!; [done..|].
    intros v. rewrite Hc, <- He, Hsorted, elem_of_cons. intuition lia.
Qed.

(** ** The Hilbert curve *)

Lemma hilbertIndex_S j x y :
  hilbertIndex (S j) x y
  = 4 ^ Z.of_nat j * quadrant (Z.testbit x (Z.of_nat j)) (Z.testbit y (Z.of_nat j))
    + hilbertIndex j (turn (Z.testbit x (Z.of_nat j)) (Z.testbit y (Z.of_nat j)) x y).1
                     (turn (Z.testbit x (Z.of_nat j)) (Z.testbit y (Z.of_nat j)) x y).2.
Proof. reflexivity. Qed.

Lemma land_pow2 x j :
  0 ≤ j → Z.land x (2 ^ j) = if Z.testbit x j then 2 ^ j else 0.
Proof.
  intros Hj. apply Z.bits_inj'. intros i Hi.
  rewrite Z.land_spec, Z.pow2_bits_eqb by lia.
  destruct (Z.eqb_spec j i) as [->|Hne].
  - destruct (Z.testbit x i); simpl.
    + by rewrite Z.pow2_bits_true.
    + by rewrite Z.bits_0.
  - rewrite andb_false_r. destruct (Z.testbit x j).
    + rewrite Z.pow2_bits_false by lia. done.
    + by rewrite Z.bits_0.
Qed.

Lemma toInt32_small v : - 2 ^ 31 ≤ v < 2 ^ 31 → JS.toInt32 v = v.
Proof. intros H. unfold JS.toInt32. rewrite Z.mod_small; lia. Qed.

Lemma agree_refl j a : agree j a a.
Proof. done. Qed.

Lemma agree_sym j a b : agree j a b → agree j b a.
Proof. intros H i Hi. symmetry. by apply H. Qed.

Lemma agree_trans j a b c : agree j a b → agree j b c → agree j a c.
Proof. intros H1 H2 i Hi. rewrite H1, H2; done. Qed.

Lemma agree_S j a b : agree (S j) a b → agree j a b.
Proof. intros H i Hi. apply H. lia. Qed.

Lemma agree_S_intro j a b :
  Z.testbit a (Z.of_nat j) = Z.testbit b (Z.of_nat j) → agree j a b → agree (S j) a b.
Proof.
  intros Ht H i Hi. destruct (decide (i = Z.of_nat j)) as [->|]; [done|].
  apply H. lia.
Qed.

Lemma agree_lnot j a b : agree j a b → agree j (Z.lnot a) (Z.lnot b).
Proof. intros H i Hi. rewrite !Z.lnot_spec by lia. f_equal. by apply H. Qed.

Lemma agree_lnot_inv j a b : agree j (Z.lnot a) (Z.lnot b) → agree j a b.
Proof. intros H. apply agree_lnot in H. by rewrite !Z.lnot_involutive in H. Qed.

(** Adding a multiple of [2^k] leaves the bits below [k] alone. *)
Lemma agree_add_mul_pow2 (j : nat) k a m :
  Z.of_nat j ≤ k → agree j (a + m * 2 ^ k) a.
Proof.
  intros Hk i Hi.
  rewrite <- (Z.mod_pow2_bits_low (a + m * 2 ^ k) (Z.of_nat j)) by lia.
  rewrite <- (Z.mod_pow2_bits_low a (Z.of_nat j) i) by lia.
  f_equal.
  replace (2 ^ k) with (2 ^ (k - Z.of_nat j) * 2 ^ Z.of_nat j)
    by (rewrite <- Z.pow_add_r by lia; f_equal; lia).
  rewrite Z.mul_assoc. apply Z.mod_add.
  apply Z.pow_nonzero; lia.
Qed.

Lemma agree_eq (j : nat) a b :
  0 ≤ a < 2 ^ Z.of_nat j → 0 ≤ b < 2 ^ Z.of_nat j → agree j a b → a = b.
Proof.
  intros Ha Hb H. apply Z.bits_inj'. intros i Hi.
  destruct (decide (i < Z.of_nat j)) as [Hlt|Hge]; [apply H; lia|].
  rewrite <- (Z.mod_small a (2 ^ Z.of_nat j)), <- (Z.mod_small b (2 ^ Z.of_nat j)) by done.
  rewrite !Z.mod_pow2_bits_high by lia. done.
Qed.

Lemma testbit_below (j : nat) a : 0 ≤ a < 2 ^ Z.of_nat j → Z.testbit a (Z.of_nat j) = false.
Proof.
  intros Ha. rewrite <- (Z.mod_small a (2 ^ Z.of_nat j)) by done.
  apply Z.mod_pow2_bits_high. lia.
Qed.

Lemma testbit_add_pow2 (j : nat) a :
  0 ≤ a < 2 ^ Z.of_nat j → Z.testbit (a + 2 ^ Z.of_nat j) (Z.of_nat j) = true.
Proof.
  intros Ha. rewrite Z.testbit_true by lia.
  replace (a + 2 ^ Z.of_nat j) with (a + 1 * 2 ^ Z.of_nat j) by lia.
  rewrite Z.div_add by lia. rewrite Z.div_small by done. done.
Qed.

Lemma turn_agree j rx ry x y x' y' :
  agree j x x' → agree j y y' →
  agree j (turn rx ry x y).1 (turn rx ry x' y').1
  ∧ agree j (turn rx ry x y).2 (turn rx ry x' y').2.
Proof. intros Hx Hy. destruct rx, ry; simpl; auto using agree_lnot. Qed.

Lemma turn_agree_inv j rx ry x y x' y' :
  agree j (turn rx ry x y).1 (turn rx ry x' y').1 →
  agree j (turn rx ry x y).2 (turn rx ry x' y').2 →
  agree j x x' ∧ agree j y y'.
Proof. destruct rx, ry; simpl; auto using agree_lnot_inv. Qed.

Lemma hilbertIndex_agree j : ∀ x y x' y',
  agree j x x' → agree j y y' → hilbertIndex j x y = hilbertIndex j x' y'.
Proof.
  induction j as [|j IH]; intros x y x' y' Hx Hy; [done|]. simpl.
  rewrite <- (Hx (Z.of_nat j)), <- (Hy (Z.of_nat j)) by lia.
  f_equal.
  destruct (turn_agree j (Z.testbit x (Z.of_nat j)) (Z.testbit y (Z.of_nat j)) x y x' y')
    as [H1 H2]; [by apply agree_S..|].
  by apply IH.
Qed.

Lemma quadrant_range rx ry : 0 ≤ quadrant rx ry ≤ 3.
Proof. destruct rx, ry; simpl; lia. Qed.

Lemma quadrant_inj rx ry rx' ry' :
  quadrant rx ry = quadrant rx' ry' → rx = rx' ∧ ry = ry'.
Proof. destruct rx, ry, rx', ry'; simpl; intros H; done. Qed.

Lemma hilbertIndex_range j : ∀ x y, 0 ≤ hilbertIndex j x y < 4 ^ Z.of_nat j.
Proof.
  induction j as [|j IH]; intros x y; simpl hilbertIndex; [simpl; lia|].
  rewrite Nat2Z.inj_succ, Z.pow_succ_r by lia.
  pose proof (quadrant_range (Z.testbit x (Z.of_nat j)) (Z.testbit y (Z.of_nat j))).
  pose proof (IH (turn (Z.testbit x (Z.of_nat j)) (Z.testbit y (Z.of_nat j)) x y).1
                 (turn (Z.testbit x (Z.of_nat j)) (Z.testbit y (Z.of_nat j)) x y).2).
  nia.
Qed.

Lemma hilbertIndex_inj j : ∀ x y x' y',
  hilbertIndex j x y = hilbertIndex j x' y' → agree j x x' ∧ agree j y y'.
Proof.
  induction j as [|j IH]; intros x y x' y' H.
  - split; intros i Hi; lia.
  - simpl in H.
    set (rx := Z.testbit x (Z.of_nat j)) in *. set (ry := Z.testbit y (Z.of_nat j)) in *.
    set (rx' := Z.testbit x' (Z.of_nat j)) in *. set (ry' := Z.testbit y' (Z.of_nat j)) in *.
    pose proof (quadrant_range rx ry) as Hq1. pose proof (quadrant_range rx' ry') as Hq2.
    pose proof (hilbertIndex_range j (turn rx ry x y).1 (turn rx ry x y).2) as Hr1.
    pose proof (hilbertIndex_range j (turn rx' ry' x' y').1 (turn rx' ry' x' y').2) as Hr2.
    assert (Hq : quadrant rx ry = quadrant rx' ry') by nia.
    apply quadrant_inj in Hq as [Hrx Hry].
    rewrite <- Hrx, <- Hry in H.
    assert (Hrest : hilbertIndex j (turn rx ry x y).1 (turn rx ry x y).2
                    = hilbertIndex j (turn rx ry x' y').1 (turn rx ry x' y').2) by lia.
    apply IH in Hrest as [H1 H2].
    destruct (turn_agree_inv j rx ry x y x' y' H1 H2) as [Hx Hy].
    split; by apply agree_S_intro.
Qed.

Lemma lnot_sub a : Z.lnot a = - a - 1.
Proof. unfold Z.lnot. lia. Qed.

Lemma pow4_pow2 (j : nat) : 4 ^ Z.of_nat j = 2 ^ Z.of_nat j * 2 ^ Z.of_nat j.
Proof. change 4 with (2 * 2). by rewrite Z.pow_mul_l. Qed.

Lemma hilbertIndex_surj j : ∀ d,
  0 ≤ d < 4 ^ Z.of_nat j →
  ∃ x y, 0 ≤ x < 2 ^ Z.of_nat j ∧ 0 ≤ y < 2 ^ Z.of_nat j ∧ hilbertIndex j x y = d.
Proof.
  induction j as [|j IH]; intros d Hd.
  - exists 0, 0. simpl in *. lia.
  - rewrite Nat2Z.inj_succ, Z.pow_succ_r in Hd by lia.
    rewrite Nat2Z.inj_succ, Z.pow_succ_r by lia.
    set (s := 2 ^ Z.of_nat j) in *.
    assert (Hs : 0 < s) by (apply Z.pow_pos_nonneg; lia).
    assert (H4 : 0 < 4 ^ Z.of_nat j) by (apply Z.pow_pos_nonneg; lia).
    pose proof (Z.div_mod d (4 ^ Z.of_nat j) ltac:(lia)) as Hdm.
    pose proof (Z.mod_pos_bound d (4 ^ Z.of_nat j) H4) as Hr.
    destruct (IH (d mod 4 ^ Z.of_nat j) Hr) as (u & v & Hu & Hv & Huv).
    fold s in Hu, Hv.
    assert (Hq : 0 ≤ d / 4 ^ Z.of_nat j ≤ 3).
    { split; [apply Z.div_pos; lia|].
      assert (d / 4 ^ Z.of_nat j < 4); [|lia].
      apply Z.div_lt_upper_bound; lia. }
    assert (Hcase : ∀ rx ry x y,
               Z.testbit x (Z.of_nat j) = rx → Z.testbit y (Z.of_nat j) = ry →
               quadrant rx ry = d / 4 ^ Z.of_nat j →
               agree j (turn rx ry x y).1 u → agree j (turn rx ry x y).2 v →
               hilbertIndex (S j) x y = d).
    { intros rx ry x y <- <- Hquad H1 H2. simpl.
      rewrite (hilbertIndex_agree j _ _ u v H1 H2). lia. }
    assert (Hcases : d / 4 ^ Z.of_nat j = 0 ∨ d / 4 ^ Z.of_nat j = 1
                     ∨ d / 4 ^ Z.of_nat j = 2 ∨ d / 4 ^ Z.of_nat j = 3) by lia.
    destruct Hcases as [Hc|[Hc|[Hc|Hc]]].
    + exists v, u. split; [lia|]. split; [lia|].
      apply (Hcase false false); simpl; try done; by apply testbit_below.
    + exists u, (v + s). split; [lia|]. split; [lia|].
      apply (Hcase false true); simpl; try done.
      * by apply testbit_below.
      * by apply testbit_add_pow2.
      * replace (v + s) with (v + 1 * 2 ^ Z.of_nat j) by (unfold s; lia).
        by apply agree_add_mul_pow2.
    + exists (u + s), (v + s). split; [lia|]. split; [lia|].
      apply (Hcase true true); simpl; try done.
      * by apply testbit_add_pow2.
      * by apply testbit_add_pow2.
      * replace (u + s) with (u + 1 * 2 ^ Z.of_nat j) by (unfold s; lia).
        by apply agree_add_mul_pow2.
      * replace (v + s) with (v + 1 * 2 ^ Z.of_nat j) by (unfold s; lia).
        by apply agree_add_mul_pow2.
    + exists (s - 1 - v + s), (s - 1 - u). split; [lia|]. split; [lia|].
      apply (Hcase true false); simpl; try done.
      * apply testbit_add_pow2. fold s. lia.
      * apply testbit_below. fold s. lia.
      * rewrite lnot_sub.
        replace (- (s - 1 - u) - 1) with (u + -1 * 2 ^ Z.of_nat j) by (unfold s; lia).
        by apply agree_add_mul_pow2.
      * rewrite lnot_sub.
        replace (- (s - 1 - v + s) - 1) with (v + -2 * 2 ^ Z.of_nat j) by (unfold s; lia).
        by apply agree_add_mul_pow2.
Qed.

Lemma and_scale (j : nat) v :
  (j ≤ 30)%nat → - 2 ^ 31 ≤ v < 2 ^ 31 →
  (JS.and v (2 ^ Z.of_nat j) >? 0) = Z.testbit v (Z.of_nat j).
Proof.
  intros Hj Hv. unfold JS.and.
  assert (Hp : 0 < 2 ^ Z.of_nat j ≤ 2 ^ 30).
  { split; [apply Z.pow_pos_nonneg; lia|apply Z.pow_le_mono_r; lia]. }
  rewrite !toInt32_small by lia.
  rewrite land_pow2 by lia.
  destruct (Z.testbit v (Z.of_nat j)); lia.
Qed.

Lemma xor_quadrant rx ry :
  JS.xor (3 * (if rx : bool then 1 else 0)) (if ry : bool then 1 else 0) = quadrant rx ry.
Proof. by destruct rx, ry. Qed.

Lemma hilbertStep_spec (j : nat) x y d :
  (j < 31)%nat → withinInt32 (S j) x → withinInt32 (S j) y →
  let rx := Z.testbit x (Z.of_nat j) in
  let ry := Z.testbit y (Z.of_nat j) in
  ∃ x' y',
    GridCoordinate.hilbertStep (2 ^ Z.of_nat j) (x, y, d)
    = (x', y', d + 4 ^ Z.of_nat j * quadrant rx ry)
    ∧ agree j x' (turn rx ry x y).1 ∧ agree j y' (turn rx ry x y).2
    ∧ withinInt32 j x' ∧ withinInt32 j y'.
Proof.
  intros Hj Hx Hy rx ry. unfold withinInt32 in *.
  rewrite Nat2Z.inj_succ, Z.pow_succ_r in Hx, Hy by lia.
  assert (Hp : 0 < 2 ^ Z.of_nat j ≤ 2 ^ 30).
  { split; [apply Z.pow_pos_nonneg; lia|apply Z.pow_le_mono_r; lia]. }
  unfold GridCoordinate.hilbertStep.
  rewrite !and_scale by lia. fold rx ry.
  rewrite xor_quadrant, <- pow4_pow2.
  unfold GridCoordinate.hilbertRotate.
  set (s := 2 ^ Z.of_nat j) in *.
  destruct rx, ry; simpl; eexists _, _; (split; [reflexivity|]); split_and!;
    try apply agree_refl; try lia.
  - rewrite lnot_sub. replace (s - 1 - y) with (- y - 1 + 1 * 2 ^ Z.of_nat j) by (unfold s; lia).
    by apply agree_add_mul_pow2.
  - rewrite lnot_sub. replace (s - 1 - x) with (- x - 1 + 1 * 2 ^ Z.of_nat j) by (unfold s; lia).
    by apply agree_add_mul_pow2.
Qed.

Lemma hilbertScales_spec j : ∀ x y d,
  (j ≤ 31)%nat → withinInt32 j x → withinInt32 j y →
  (GridCoordinate.hilbertScales j (x, y, d)).2 = d + hilbertIndex j x y.
Proof.
  induction j as [|j IH]; intros x y d Hj Hx Hy; [simpl; lia|].
  destruct (hilbertStep_spec j x y d) as (x' & y' & Hstep & Hax & Hay & Hbx & Hby);
    [lia|done|done|].
  change (GridCoordinate.hilbertScales (S j) (x, y, d))
    with (GridCoordinate.hilbertScales j
            (GridCoordinate.hilbertStep (2 ^ Z.of_nat j) (x, y, d))).
  rewrite Hstep, IH by (done || lia).
  rewrite (hilbertIndex_agree j x' y' _ _ Hax Hay), hilbertIndex_S. lia.
Qed.

Lemma hilbertFractionalScales_result passes : ∀ st,
  (GridCoordinate.hilbertFractionalScales passes st).2 = st.2.
Proof.
  induction passes as [|p IH]; intros [[x y] d]; [done|].
  simpl. rewrite IH. simpl. lia.
Qed.

Lemma specHilbertStep_spec (k : Z) (j : nat) x y d :
  Z.of_nat j ≤ k →
  let rx := Z.testbit x (Z.of_nat j) in
  let ry := Z.testbit y (Z.of_nat j) in
  ∃ x' y',
    specHilbertStep (2 ^ k) (2 ^ Z.of_nat j) (x, y, d)
    = (x', y', d + 4 ^ Z.of_nat j * quadrant rx ry)
    ∧ agree j x' (turn rx ry x y).1 ∧ agree j y' (turn rx ry x y).2.
Proof.
  intros Hk rx ry. unfold specHilbertStep.
  rewrite !land_pow2 by lia. fold rx ry.
  assert (Hp : 0 < 2 ^ Z.of_nat j) by (apply Z.pow_pos_nonneg; lia).
  rewrite <- pow4_pow2.
  destruct rx, ry; simpl;
    (destruct (2 ^ Z.of_nat j =? 0) eqn:E; [lia|]); simpl;
    eexists _, _; (split; [reflexivity|]); split; try apply agree_refl.
  - rewrite lnot_sub. replace (2 ^ k - 1 - y) with (- y - 1 + 1 * 2 ^ k) by lia.
    by apply agree_add_mul_pow2.
  - rewrite lnot_sub. replace (2 ^ k - 1 - x) with (- x - 1 + 1 * 2 ^ k) by lia.
    by apply agree_add_mul_pow2.
Qed.

Lemma specHilbertScales_spec (k : Z) j : ∀ x y d,
  Z.of_nat j ≤ k →
  (specHilbertScales (2 ^ k) j (x, y, d)).2 = d + hilbertIndex j x y.
Proof.
  induction j as [|j IH]; intros x y d Hj; [simpl; lia|].
  destruct (specHilbertStep_spec k j x y d) as (x' & y' & Hstep & Hax & Hay); [lia|].
  change (specHilbertScales (2 ^ k) (S j) (x, y, d))
    with (specHilbertScales (2 ^ k) j (specHilbertStep (2 ^ k) (2 ^ Z.of_nat j) (x, y, d))).
  rewrite Hstep, IH by lia.
  rewrite (hilbertIndex_agree j x' y' _ _ Hax Hay), hilbertIndex_S. lia.
Qed.

Lemma nextPowerOfTwo_pow2 maxDim :
  maxDim ≤ 2 ^ 26 →
  ∃ k : nat, (k ≤ 26)%nat
    ∧ GridCoordinate.nextPowerOfTwo maxDim = 2 ^ Z.of_nat k
    ∧ Z.to_nat (Z.log2 (GridCoordinate.nextPowerOfTwo maxDim)) = k
    ∧ maxDim ≤ 2 ^ Z.of_nat k.
Proof.
  intros Hmax. unfold GridCoordinate.nextPowerOfTwo.
  destruct (Z.leb_spec maxDim 1) as [Hle|Hgt].
  - exists 0%nat. simpl. split_and!; (done || lia).
  - pose proof (Z.log2_up_nonneg maxDim) as H0.
    assert (Hk : Z.log2_up maxDim ≤ 26) by (apply Z.log2_up_le_pow2; lia).
    exists (Z.to_nat (Z.log2_up maxDim)). rewrite Z2Nat.id by done.
    split_and!; [lia|done|by rewrite Z.log2_pow2|].
    apply Z.log2_up_spec. lia.
Qed.

Lemma hilbertEncode2D_hilbertIndex maxDim (k : nat) x y :
  (k ≤ 26)%nat →
  GridCoordinate.nextPowerOfTwo maxDim = 2 ^ Z.of_nat k →
  Z.to_nat (Z.log2 (GridCoordinate.nextPowerOfTwo maxDim)) = k →
  0 ≤ x < 2 ^ Z.of_nat k → 0 ≤ y < 2 ^ Z.of_nat k →
  GridCoordinate.hilbertEncode2D x y maxDim = hilbertIndex k x y.
Proof.
  intros Hk Hn Hlog Hx Hy. unfold GridCoordinate.hilbertEncode2D.
  rewrite hilbertFractionalScales_result, Hlog.
  assert (Hp : 2 ^ Z.of_nat k ≤ 2 ^ 26) by (apply Z.pow_le_mono_r; lia).
  rewrite hilbertScales_spec; [lia|lia|unfold withinInt32; lia..].
Qed.

(** C3, as amended.  For every [maxDim] up to 2^26, [n = nextPowerOfTwo(maxDim)]
    is a power of two, [hilbertEncode2D(x, y, maxDim)] restricted to
    [0 <= x, y < n] is a bijection onto [[0, n * n)], and its value is the
    value of the recurrence of the specification.  (The code reflects with
    the current scale [s] where the specification reflects with [n]; the two
    differ only in bits that the finer scales do not read.) *)
Theorem hilbertEncode2D_dense_bijection (maxDim : Z) :
  maxDim ≤ 2 ^ 26 → hilbertDenseBijection maxDim.
Proof.
  intros Hmax. unfold hilbertDenseBijection.
  destruct (nextPowerOfTwo_pow2 maxDim Hmax) as (k & Hk & Hn & Hlog & _).
  pose proof (hilbertEncode2D_hilbertIndex maxDim k) as Hcore.
  rewrite Hn. split_and!.
  - exists (Z.of_nat k). split; [lia|done].
  - intros x y Hx Hy. rewrite Hcore by done. rewrite <- pow4_pow2.
    apply hilbertIndex_range.
  - intros x y x' y' Hx Hy Hx' Hy' Heq. rewrite !Hcore in Heq by done.
    apply hilbertIndex_inj in Heq as [H1 H2]. split; by apply (agree_eq k).
  - intros d Hd. rewrite <- pow4_pow2 in Hd.
    destruct (hilbertIndex_surj k d Hd) as (x & y & Hx & Hy & Hxy).
    exists x, y. rewrite Hcore by done. done.
  - intros x y Hx Hy. rewrite Hcore by done.
    unfold specHilbert2D. rewrite Z.log2_pow2, Nat2Z.id by lia.
    rewrite specHilbertScales_spec by lia. lia.
Qed.

Lemma hilbertEncode2D_dense_bijection_witness : hilbertDenseBijection 200.
Proof. apply hilbertEncode2D_dense_bijection. lia. Defined.

(** C3 as stated fails for large powers of two: with [n = 2^32] the scale
    [s = 2^31] is the sign bit of a 32-bit integer, [(x & s) > 0] is false
    for every [x], and [(2^31, 0)] gets the index 0 of [(0, 0)]. *)
Lemma hilbertEncode2D_collides_beyond_int32 : ¬ hilbertDenseBijection 4294967296.
Proof.
  unfold hilbertDenseBijection. intros (_ & _ & Hinj & _).
  assert (Hn : GridCoordinate.nextPowerOfTwo 4294967296 = 4294967296)
    by (vm_compute; reflexivity).
  rewrite Hn in Hinj.
  destruct (Hinj 2147483648 0 0 0) as [H _]; [lia..| |lia].
  vm_compute. reflexivity.
Qed.

(** ** Bits of the Morton code *)

(** [ToInt32] keeps the low 32 bits. *)
Lemma testbit_toInt32 v k : 0 ≤ k < 32 → Z.testbit (JS.toInt32 v) k = Z.testbit v k.
Proof.
  intros Hk.
  rewrite <- (Z.mod_pow2_bits_low (JS.toInt32 v) 32 k), <- (Z.mod_pow2_bits_low v 32 k) by lia.
  f_equal. unfold JS.toInt32. rewrite Zminus_mod_idemp_l. f_equal. lia.
Qed.

Lemma testbit_or a b k :
  0 ≤ k < 32 → Z.testbit (JS.or a b) k = Z.testbit a k || Z.testbit b k.
Proof. intros Hk. unfold JS.or. by rewrite Z.lor_spec, !testbit_toInt32. Qed.

Lemma testbit_and a b k :
  0 ≤ k < 32 → Z.testbit (JS.and a b) k = Z.testbit a k && Z.testbit b k.
Proof. intros Hk. unfold JS.and. by rewrite Z.land_spec, !testbit_toInt32. Qed.

Lemma testbit_shl a n k :
  0 ≤ n < 32 → 0 ≤ k < 32 →
  Z.testbit (JS.shl a n) k = if k <? n then false else Z.testbit a (k - n).
Proof.
  intros Hn Hk. unfold JS.shl. rewrite testbit_toInt32 by done.
  change 31 with (Z.ones 5). rewrite Z.land_ones by lia.
  rewrite Z.mod_small by (simpl; lia).
  rewrite Z.shiftl_spec by lia.
  destruct (Z.ltb_spec k n).
  - apply Z.testbit_neg_r. lia.
  - apply testbit_toInt32. lia.
Qed.

(** The term [(v & (1 << i)) << n] has one bit: bit [i] of [v], moved to
    position [i + n]. *)
Lemma testbit_masked_shift v i n k :
  0 ≤ i < 32 → 0 ≤ n < 32 → 0 ≤ k < 32 →
  Z.testbit (JS.shl (JS.and v (JS.shl 1 i)) n) k = Z.testbit v i && (k =? i + n).
Proof.
  intros Hi Hn Hk. rewrite testbit_shl by done.
  destruct (Z.ltb_spec k n) as [Hlt|Hge].
  - destruct (Z.eqb_spec k (i + n)); [lia|]. by rewrite andb_false_r.
  - rewrite testbit_and, testbit_shl by lia.
    destruct (Z.ltb_spec (k - n) i) as [Hlt'|Hge'].
    + destruct (Z.eqb_spec k (i + n)); [lia|]. by rewrite !andb_false_r.
    + change 1 with (2 ^ 0). rewrite Z.pow2_bits_eqb by lia.
      destruct (Z.eqb_spec 0 (k - n - i)) as [Heq|Hne].
      * replace (k - n) with i by lia.
        destruct (Z.eqb_spec k (i + n)); [done|lia].
      * destruct (Z.eqb_spec k (i + n)); [lia|]. by rewrite !andb_false_r.
Qed.

Lemma mortonEncode2D_loop_bits x y k (indices : list Z) : ∀ result,
  0 ≤ k < 32 → Forall (λ i, 0 ≤ i < 16) indices →
  Z.testbit
    (foldl (λ result i,
              JS.or result
                (JS.or (JS.shl (JS.and x (JS.shl 1 i)) i)
                       (JS.shl (JS.and y (JS.shl 1 i)) (i + 1))))
           result indices) k
  = Z.testbit result k
    || existsb (λ i, Z.testbit x i && (k =? i + i)
                     || Z.testbit y i && (k =? i + (i + 1))) indices.
Proof.
  induction indices as [|i indices IH]; intros result Hk Hall; simpl.
  - by rewrite orb_false_r.
  - apply Forall_cons in Hall as [Hi Hall].
    rewrite IH by done.
    rewrite !testbit_or, !testbit_masked_shift by lia.
    rewrite <- !orb_assoc. done.
Qed.

(** The bits of [mortonEncode2D(x, y)], read as a 32-bit pattern: bit [i] of
    [x] is at position [2 i] and bit [i] of [y] at position [2 i + 1], for
    [i] from 0 to 15. *)
Lemma mortonEncode2D_bits x y i :
  0 ≤ i < 16 →
  Z.testbit (GridCoordinate.mortonEncode2D x y) (2 * i) = Z.testbit x i
  ∧ Z.testbit (GridCoordinate.mortonEncode2D x y) (2 * i + 1) = Z.testbit y i.
Proof.
  intros Hi. unfold GridCoordinate.mortonEncode2D.
  assert (Hall : Forall (λ i, 0 ≤ i < 16) (JS.range 0 16)).
  { apply Forall_forall. intros j Hj. unfold JS.range in Hj.
    apply elem_of_seqZ in Hj. lia. }
  assert (Hin : In i (JS.range 0 16)).
  { apply list_elem_of_In. unfold JS.range. apply elem_of_seqZ. lia. }
  rewrite !mortonEncode2D_loop_bits by (done || lia).
  rewrite !Z.bits_0, !orb_false_l.
  split; apply Bool.eq_iff_eq_true; rewrite existsb_exists; split.
  - intros (j & _ & Hj). apply orb_true_iff in Hj as [Hj|Hj];
      apply andb_true_iff in Hj as [Hb Hj]; apply Z.eqb_eq in Hj; [|lia].
    by replace i with j by lia.
  - intros Hb. exists i. split; [done|]. rewrite Hb. simpl.
    apply orb_true_iff. left. apply Z.eqb_eq. lia.
  - intros (j & _ & Hj). apply orb_true_iff in Hj as [Hj|Hj];
      apply andb_true_iff in Hj as [Hb Hj]; apply Z.eqb_eq in Hj; [lia|].
    by replace i with j by lia.
  - intros Hb. exists i. split; [done|]. rewrite Hb. simpl.
    apply orb_true_iff. right. apply Z.eqb_eq. lia.
Qed.

(** On 16-bit coordinates [mortonEncode2D] is injective. *)
Lemma mortonEncode2D_injective x y x' y' :
  0 ≤ x < 2 ^ 16 → 0 ≤ y < 2 ^ 16 → 0 ≤ x' < 2 ^ 16 → 0 ≤ y' < 2 ^ 16 →
  GridCoordinate.mortonEncode2D x y = GridCoordinate.mortonEncode2D x' y' →
  x = x' ∧ y = y'.
Proof.
  intros Hx Hy Hx' Hy' Heq.
  split; apply (agree_eq 16); try done; intros i Hi.
  - destruct (mortonEncode2D_bits x y i) as [<- _]; [lia|].
    destruct (mortonEncode2D_bits x' y' i) as [<- _]; [lia|]. by rewrite Heq.
  - destruct (mortonEncode2D_bits x y i) as [_ <-]; [lia|].
    destruct (mortonEncode2D_bits x' y' i) as [_ <-]; [lia|]. by rewrite Heq.
Qed.

(** C4.  The code at an input on which the claim fails: bit 15 of [y] is
    shifted to bit 31, which is the sign bit of the 32-bit result, so
    [mortonEncode2D(0, 32768)] is [-2147483648]: a negative number, outside
    [0, 4^16). *)
Theorem mortonEncode2D_sign_bit :
  0 ≤ 32768 < 2 ^ 16
  ∧ GridCoordinate.mortonEncode2D 0 32768 = -2147483648
  ∧ ¬ (0 ≤ GridCoordinate.mortonEncode2D 0 32768 < 4 ^ 16).
Proof.
  split; [lia|]. split; [vm_compute; reflexivity|].
  assert (H : GridCoordinate.mortonEncode2D 0 32768 = -2147483648)
    by (vm_compute; reflexivity).
  rewrite H. lia.
Qed.

(** ** Global indices under the layered Hilbert order *)

(** C1.  The code at a configuration on which the claim fails: in the
    3 x 2 x 3 array of [layeredHilbertCells] the distinct cells [(2, 1, 0)]
    and [(1, 0, 2)] both get the global index 10, and over all 18 cells the
    indices 9 and 11 are never produced, so [getGlobalIndex] is neither
    injective nor onto [0, 18). *)
Theorem layered_hilbert_global_index_collides :
  let p := layeredHilbertCells in
  Exec.value (SimulationModel.positionsOf [(2, 1, 0); (1, 0, 2)] p SimulationModel.new)
  = Some [10; 10]
  ∧ Exec.value (SimulationModel.positionsOf (arrayCells 3 2 3) p SimulationModel.new)
    = Some [0; 1; 12; 3; 2; 10; 4; 5; 15; 7; 6; 14; 8; 10; 17; 13; 12; 16].
Proof. split; vm_compute; reflexivity. Qed.

(** C2.  The code at a configuration on which the claim fails: in
    [layeredHilbertChunks] the cell [(2, 0, 1)] has chunk index 12 and local
    rank 1, the cell [(0, 1, 4)] has chunk index 13 and local rank 0, so the
    first pair is lexicographically smaller; yet both cells get the global
    index 23. *)
Theorem layered_hilbert_chunk_order_broken :
  let c := SimulationModel.buildCellCoordinateSystem layeredHilbertChunks in
  let s := CellCoordinate.fresh (Some (LRUCache.create SimulationModel.LRU_CONFIG_CACHE_SIZE)) in
  let chunkA := CellCoordinate.getParentChunk c 2 0 1 in
  let chunkB := CellCoordinate.getParentChunk c 0 1 4 in
  Exec.value (CellCoordinate.getChunkIndex c chunkA s) = Some 12
  ∧ Exec.value (CellCoordinate.getLocalCellIndex c 2 0 1 chunkA s) = Some 1
  ∧ Exec.value (CellCoordinate.getChunkIndex c chunkB s) = Some 13
  ∧ Exec.value (CellCoordinate.getLocalCellIndex c 0 1 4 chunkB s) = Some 0
  ∧ lexLt (12, 1) (13, 0)
  ∧ Exec.value (CellCoordinate.getGlobalIndex c 2 0 1 s) = Some 23
  ∧ Exec.value (CellCoordinate.getGlobalIndex c 0 1 4 s) = Some 23
  ∧ Exec.value (SimulationModel.positionsOf [(2, 0, 1); (0, 1, 4)]
                  layeredHilbertChunks SimulationModel.new) = Some [23; 23].
Proof.
  split_and!; try (vm_compute; reflexivity).
  left. simpl. lia.
Qed.

(** C5.  The code at a configuration on which the claim fails: for the full
    query of [layeredHilbertCells] the actual cells are the 18 cells of the
    array, and [calculateData] returns the chunked ranges
    [0,8], [10,10], [10,10], [12,12], [12,17], which repeat and overlap: they
    are not the decomposition of the index set into maximal runs. *)
Theorem layered_hilbert_ranges_overlap :
  let result := Exec.value (SimulationModel.calculateData layeredHilbertCells SimulationModel.new) in
  (λ d, size (SimulationModel.actualCells d)) <$> result = Some 18%nat
  ∧ SimulationModel.chunkedRanges <$> result
    = Some [(0, 8); (10, 10); (10, 10); (12, 12); (12, 17)]
  ∧ ∀ indices,
      ¬ runDecomposition indices [(0, 8); (10, 10); (10, 10); (12, 12); (12, 17)].
Proof.
  split; [vm_compute; reflexivity|].
  split; [vm_compute; reflexivity|].
  intros indices (_ & Hgap & _).
  specialize (Hgap 1%nat (10, 10) (10, 10) eq_refl eq_refl). simpl in Hgap. lia.
Qed.
